(** * Eyewitness breaking-news pipeline: src/app/modules/breakingNews.js

    A shallow embedding of the breaking-news batch pipeline (candidate
    selection, durable queueing, paged dispatch, recovery orchestration)
    and the properties of it stated by the design document.

    JavaScript [async] functions become computations in a small
    state-and-exception monad over a [World]: the persistent store, the
    chronological record of every store call and send, and the timers
    registered with [setTimeout] that have not fired yet.

    A computation of the monad is a call with nothing else running in
    between.  [sendOutstanding] awaits calls that leave timers behind,
    and a timer may become due while a later call is still awaited; it
    is therefore written operation by operation, and an event loop
    decides whose operation comes next. *)

From Stdlib Require Import List String ZArith Bool Lia Arith PeanoNat.
From Stdlib Require Import Permutation DecimalString.
Import ListNotations.
Local Open Scope string_scope.
Local Open Scope list_scope.

Set Implicit Arguments.

(* ================================================================== *)
(** ** Data model *)

(** Mongo identifiers, as they print inside a template string. *)
Definition ObjectId := string.

(** Timestamps (milliseconds since the epoch). *)
Definition Date := Z.

(** A boolean document field may be missing: [None] is "not set". *)
Definition flag := option bool.

Record Profile := { created : Date }.

Record Bot := { disabled : flag }.

(** A document of the [User] collection: [_id], [profile.created],
    [bot.disabled]. *)
Record User := {
  user_id : ObjectId;
  profile : Profile;
  bot : Bot
}.

(** A document of the [Article] collection. *)
Record Article := {
  article_id : ObjectId;
  feedId : ObjectId;
  title : string;
  description : string;
  imageUrl : string;
  articleDate : Date;
  isPublished : flag;
  isPriority : flag;
  _receivedByUsers : list ObjectId
}.

(** The record handed to [database.insert(QUEUE_COLLECTION, ...)]. *)
Record QueueData := {
  userData : User;
  articleData : Article
}.

(** A stored document of the queue collection: the inserted fields plus
    the [_id] and [addedDate] the store gives it. *)
Record QueueItem := {
  queue_id : ObjectId;
  queue_data : QueueData;
  addedDate : Date
}.

(** *** Messages *)

Record Button := {
  button_type : string;
  button_label : string;
  payload : string;
  button_sharing : bool
}.

Record Element := {
  element_label : string;
  element_text : string;
  element_imageUrl : string;
  buttons : list Button
}.

Record Carousel := {
  sharing : bool;
  elements : list Element
}.

Record MenuOption := { option_label : string }.

(** The second argument of [MessageObject.outgoing]. *)
Inductive Content :=
| text_content (text : string)
| carousel_content (carousel : Carousel) (options : list MenuOption).

(** [MessageObject.outgoing(recUser, content)]: the envelope. *)
Record Message := outgoing {
  recipient : User;
  content : Content
}.

(* ================================================================== *)
(** ** Effects *)

Inductive exn :=
| TypeError (what : string)
| Failure (what : string).

(** Names of the persisted collections. *)
Inductive collection : Type -> Type :=
| User_collection : collection User
| Article_collection : collection Article
| QUEUE_COLLECTION : collection QueueItem.

Definition collection_name {A} (c : collection A) : string :=
  match c with
  | User_collection => "User"
  | Article_collection => "Article"
  | QUEUE_COLLECTION => "BreakingNewsQueuedItem"
  end.

(** The one mutation the pipeline issues:
    [{ $addToSet: { _receivedByUsers: id } }]. *)
Inductive Mutation :=
| addToSet_receivedByUsers (id : ObjectId).

(** Everything observable that the pipeline does, in the order it does
    it.  A [Send] carries what the channel answered: [None] when the
    send resolved, [Some e] when it threw [e]. *)
Inductive Event :=
| Get (name : string) (skip : nat)
| Insert (name : string) (d : QueueData)
| Update (name : string) (a : Article) (m : Mutation)
| DeleteWhere (name : string) (ids : list ObjectId)
| Send (u : User) (m : Message) (outcome : option exn)
| SetTimeout (ms : nat)
| UnhandledRejection (e : exn).

(** The [sendMessage] capability.  The channel is outside the pipeline;
    whether a send throws may depend on everything that happened before
    it (newest event first).  Every send settles: it resolves or it
    throws.  A send that never settles is not covered. *)
Definition Sender := list Event -> User -> Message -> option exn.

(** What reaches the [MessageObject] parameter of [sendQueuedItems]: the
    messaging class, or (through the continuation registered by
    [queueBreakingNewsItems]) a number. *)
Inductive MessageObjectT :=
| MessageObject
| number_value (n : nat).

(** A callback registered with [setTimeout]: every one in this module is
    [sendQueuedItems.bind(this, database, ...)], so it is kept as the
    arguments bound after [database]; [None] is a parameter left
    [undefined]. *)
Record Timer := {
  bound_MessageObject : MessageObjectT;
  bound_sendMessage : option Sender;
  bound_skip : option nat
}.

(** Query options: [{ sort, skip, limit }].  [sort] is the "not after"
    test of the ascending sort key. *)
Record Options (A : Type) := {
  sort : A -> A -> bool;
  skip : option nat;
  limit : option nat
}.

(** The persistent store, as the pipeline uses it.  [get] is read at two
    result types, as the code does: a paged read answers with an array or
    with nothing ([recUsers || []]); the article lookup answers with one
    record or with nothing ([recArticle || null]).  A read does not
    change the store; a write that throws leaves it as it was. *)
Class Database (S : Type) := {
  get : forall A, collection A -> (A -> bool) -> Options A -> S ->
        exn + option (list A);
  get_record : forall A, collection A -> (A -> bool) -> Options A -> S ->
        exn + option A;
  insert : collection QueueItem -> QueueData -> S -> exn + S;
  update : collection Article -> Article -> Mutation -> S -> exn + S;
  deleteWhere : collection QueueItem -> list ObjectId -> S -> exn + S
}.

Record World (S : Type) := {
  db : S;
  trace : list Event;          (* newest first *)
  timers : list Timer          (* in firing order *)
}.

(** The record of events, oldest first. *)
Definition history {S} (w : World S) : list Event := rev (trace w).

Definition M (S A : Type) : Type := World S -> (exn + A) * World S.

Definition ret {S A} (a : A) : M S A := fun w => (inr a, w).

Definition throw {S A} (e : exn) : M S A := fun w => (inl e, w).

Definition bind {S A B} (m : M S A) (k : A -> M S B) : M S B :=
  fun w =>
    match m w with
    | (inl e, w1) => (inl e, w1)
    | (inr a, w1) => k a w1
    end.

Declare Scope js_scope.
Delimit Scope js_scope with js.
Notation "x <- m ;; k" := (bind m (fun x => k))
  (at level 61, m at next level, right associativity) : js_scope.
Notation "m ;; k" := (bind m (fun _ => k))
  (at level 61, right associativity) : js_scope.
Local Open Scope js_scope.

Definition log {S} (ev : Event) : M S unit :=
  fun w => (inr tt, {| db := db w; trace := ev :: trace w; timers := timers w |}).

Definition read {S A} (f : S -> exn + A) : M S A :=
  fun w => (f (db w), w).

Definition write {S} (f : S -> exn + S) : M S unit :=
  fun w =>
    match f (db w) with
    | inl e => (inl e, w)
    | inr s => (inr tt, {| db := s; trace := trace w; timers := timers w |})
    end.

(** [for (const x of xs) { ... await ... }] with the arrays the body
    pushes to threaded through as [acc]. *)
Fixpoint for_of {S A B} (xs : list A) (body : A -> B -> M S B) (acc : B)
  : M S B :=
  match xs with
  | [] => ret acc
  | x :: rest => acc1 <- body x acc ;; for_of rest body acc1
  end.

(** [await Promise.all(promises)]: every promise was started when the
    array was built, so each runs whatever the others do; the result is
    the first rejection, if there is one. *)
Fixpoint Promise_all {S} (promises : list (M S unit)) : M S unit :=
  fun w =>
    match promises with
    | [] => (inr tt, w)
    | p :: rest =>
        let (r, w1) := p w in
        let (r', w2) := Promise_all rest w1 in
        (match r with inl e => inl e | inr _ => r' end, w2)
    end.

(** [setTimeout(fn, ms)]. *)
Definition setTimeout {S} (fn : Timer) (ms : nat) : M S unit :=
  fun w => (inr tt, {| db := db w; trace := SetTimeout ms :: trace w;
                       timers := timers w ++ [fn] |}).

(* ================================================================== *)
(** ** The module: src/app/modules/breakingNews.js *)

Definition BATCH_SIZE : nat := 1000.
Definition BATCH_DELAY_MS : nat := 1000.

(** A parameter with a default value: [skip = 0]. *)
Definition default_to (d : nat) (arg : option nat) : nat :=
  match arg with
  | Some n => n
  | None => d
  end.

(** [x || []]. *)
Definition or_empty {A} (x : option (list A)) : list A :=
  match x with
  | Some l => l
  | None => []
  end.

(** [!xs.length]. *)
Definition no_length {A} (xs : list A) : bool :=
  match xs with
  | [] => true
  | _ :: _ => false
  end.

(** Query operators on one field. *)
Definition ne (v : bool) (field : flag) : bool :=
  match field with
  | Some b => negb (Bool.eqb b v)
  | None => true
  end.

Definition equals (v : bool) (field : flag) : bool :=
  match field with
  | Some b => Bool.eqb b v
  | None => false
  end.

Definition nin (vs : list ObjectId) (field : list ObjectId) : bool :=
  negb (existsb (fun x => existsb (String.eqb x) vs) field).

Definition gt (v : Date) (field : Date) : bool := (v <? field)%Z.

(** Ascending sort keys. *)
Definition asc_date {A} (key : A -> Date) : A -> A -> bool :=
  fun a b => (key a <=? key b)%Z.

Definition asc_id {A} (key : A -> ObjectId) : A -> A -> bool :=
  fun a b => String.leb (key a) (key b).

(** [{ 'bot.disabled': { $ne: true } }] *)
Definition user_conditions (u : User) : bool :=
  ne true (disabled (bot u)).

(** The [conditions] object of [getNextBreakingNewsForUser]. *)
Definition article_conditions (recUser : User) (a : Article) : bool :=
  nin [user_id recUser] (_receivedByUsers a)
  && gt (created (profile recUser)) (articleDate a)
  && ne false (isPublished a)
  && equals true (isPriority a).

Section Pipeline.

(** [config.readServer.baseUrl], read from the deployment's
    configuration. *)
Variable READ_SERVER_BASE_URL : string.

Context {S : Type} {database : Database S}.

Definition database_get {A} (c : collection A) (conditions : A -> bool)
    (options : Options A) : M S (option (list A)) :=
  log (Get (collection_name c) (default_to 0 (skip options))) ;;
  read (get c conditions options).

Definition database_get_record {A} (c : collection A)
    (conditions : A -> bool) (options : Options A) : M S (option A) :=
  log (Get (collection_name c) (default_to 0 (skip options))) ;;
  read (get_record c conditions options).

Definition database_insert (c : collection QueueItem) (d : QueueData)
  : M S unit :=
  log (Insert (collection_name c) d) ;;
  write (insert c d).

Definition database_update (c : collection Article) (a : Article)
    (m : Mutation) : M S unit :=
  log (Update (collection_name c) a m) ;;
  write (update c a m).

Definition database_deleteWhere (c : collection QueueItem)
    (ids : list ObjectId) : M S unit :=
  log (DeleteWhere (collection_name c) ids) ;;
  write (deleteWhere c ids).

(** [await sendMessage(user, message)]. *)
Definition call_sendMessage (sendMessage : option Sender) (u : User)
    (m : Message) : M S unit :=
  match sendMessage with
  | None => throw (TypeError "sendMessage is not a function")
  | Some f =>
      fun w =>
        match f (trace w) u m with
        | None => log (Send u m None) w
        | Some e => (log (Send u m (Some e)) ;; throw e) w
        end
  end.

(** Returns the next batch of queued breaking news items, or an empty
    array if there are none. *)
Definition getBatchOfQueuedItems (skip : option nat)
  : M S (list QueueItem) :=
  let skip := default_to 0 skip in
  recQueueItems <- database_get QUEUE_COLLECTION (fun _ => true)
    {| sort := asc_date addedDate;
       skip := Some skip;
       limit := Some BATCH_SIZE |} ;;
  ret (or_empty recQueueItems).

(** The two object literals of [constructBreakingNewMessages]. *)
Definition alert_content : Content := text_content "Breaking news!".

Definition carousel_for (recUser : User) (recArticle : Article)
  : Content :=
  carousel_content
    {| sharing := true;
       elements :=
         [ {| element_label := title recArticle;
              element_text := description recArticle;
              element_imageUrl := imageUrl recArticle;
              buttons :=
                [ {| button_type := "url";
                     button_label := "Read";
                     payload :=
                       (READ_SERVER_BASE_URL ++ "/"
                        ++ feedId recArticle ++ "/"
                        ++ article_id recArticle ++ "/"
                        ++ user_id recUser)%string;
                     button_sharing := true |} ] |} ] |}
    [ {| option_label := "More stories" |};
      {| option_label := "Main menu" |} ].

(** Returns the breaking news messages we need to send to the user.
    Calling [.outgoing] on anything but the messaging class throws. *)
Definition constructBreakingNewMessages (recUser : User)
    (recArticle : Article) (MessageObject : MessageObjectT)
  : M S (Message * Message) :=
  match MessageObject with
  | number_value _ =>
      throw (TypeError "MessageObject.outgoing is not a function")
  | MessageObject =>
      let alertMessage := outgoing recUser alert_content in
      let carouselMessage :=
        outgoing recUser (carousel_for recUser recArticle) in
      ret (alertMessage, carouselMessage)
  end.

(** The body of the dispatcher's [for ... of] loop; [expended] is the
    pair of arrays [expendedQueueItemIds], [expendedQueueItemData]. *)
Definition send_item (MessageObject : MessageObjectT)
    (sendMessage : option Sender) (recQueueItem : QueueItem)
    (expended : list ObjectId * list QueueData)
  : M S (list ObjectId * list QueueData) :=
  let _id := queue_id recQueueItem in
  let userData := userData (queue_data recQueueItem) in
  let articleData := articleData (queue_data recQueueItem) in
  messages <- constructBreakingNewMessages userData articleData
                MessageObject ;;
  call_sendMessage sendMessage userData (fst messages) ;;
  call_sendMessage sendMessage userData (snd messages) ;;
  ret (fst expended ++ [_id],
       snd expended ++ [ {| userData := userData;
                            articleData := articleData |} ]).

(** The promise made for one expended item:
    [database.update(`Article`, articleData,
       { $addToSet: { _receivedByUsers: userData._id } })]. *)
Definition mark_as_received (d : QueueData) : M S unit :=
  database_update Article_collection (articleData d)
    (addToSet_receivedByUsers (user_id (userData d))).

(** Sends all the queued items recursively.  The recursion goes through
    [setTimeout]: the call itself handles one batch and registers the
    next one. *)
Definition sendQueuedItems (MessageObject : MessageObjectT)
    (sendMessage : option Sender) (skip : option nat) : M S unit :=
  let skip := default_to 0 skip in
  recQueueItems <- getBatchOfQueuedItems (Some skip) ;;
  if no_length recQueueItems then ret tt
  else
    expended <- for_of recQueueItems
                  (send_item MessageObject sendMessage) ([], []) ;;
    let expendedQueueItemIds := fst expended in
    let expendedQueueItemData := snd expended in
    let markAsReceivedPromises :=
      map mark_as_received expendedQueueItemData in
    Promise_all markAsReceivedPromises ;;
    database_deleteWhere QUEUE_COLLECTION expendedQueueItemIds ;;
    let numCompletedItems := skip + BATCH_SIZE in
    let fnRecurse :=
      {| bound_MessageObject := MessageObject;
         bound_sendMessage := sendMessage;
         bound_skip := Some numCompletedItems |} in
    setTimeout fnRecurse BATCH_DELAY_MS.

(** Returns the next batch of users, or an empty array if there are
    none. *)
Definition getBatchOfUsers (skip : option nat) : M S (list User) :=
  let skip := default_to 0 skip in
  recUsers <- database_get User_collection user_conditions
    {| sort := asc_id user_id;
       skip := Some skip;
       limit := Some BATCH_SIZE |} ;;
  ret (or_empty recUsers).

(** Returns the next unread breaking news story for the given user. *)
Definition getNextBreakingNewsForUser (recUser : User)
  : M S (option Article) :=
  let conditions := article_conditions recUser in
  let options :=
    {| sort := asc_date articleDate; skip := None; limit := None |} in
  recArticle <- database_get_record Article_collection conditions
                  options ;;
  ret recArticle.

(** The body of the selector's [for ... of] loop. *)
Definition queue_user (recUser : User) (_ : unit) : M S unit :=
  recArticle <- getNextBreakingNewsForUser recUser ;;
  match recArticle with
  | None => ret tt
  | Some recArticle =>
      database_insert QUEUE_COLLECTION
        {| userData := recUser; articleData := recArticle |}
  end.

(** Queues all the breaking news articles for all the users that need
    to be sent out.  The callback it registers is
    [sendQueuedItems.bind(this, database, numCompletedUsers)]: the
    number lands on [MessageObject], [sendMessage] and [skip] stay
    [undefined]. *)
Definition queueBreakingNewsItems (skip : option nat) : M S unit :=
  let skip := default_to 0 skip in
  recUsers <- getBatchOfUsers (Some skip) ;;
  if no_length recUsers then ret tt
  else
    for_of recUsers queue_user tt ;;
    let numCompletedUsers := skip + BATCH_SIZE in
    let fnRecurse :=
      {| bound_MessageObject := number_value numCompletedUsers;
         bound_sendMessage := None;
         bound_skip := None |} in
    setTimeout fnRecurse BATCH_DELAY_MS.

(** *** The timer queue

    Every timer of the module waits [BATCH_DELAY_MS], so timers fire in
    the order they were registered.  A callback that rejects has no
    caller to reject to: the rejection is recorded and the loop goes
    on. *)
Definition fire (t : Timer) : M S unit :=
  sendQueuedItems (bound_MessageObject t) (bound_sendMessage t)
    (bound_skip t).

Definition fire_next (t : Timer) (rest : list Timer) (w : World S)
  : World S :=
  match fire t {| db := db w; trace := trace w; timers := rest |} with
  | (inl e, w1) =>
      {| db := db w1; trace := UnhandledRejection e :: trace w1;
         timers := timers w1 |}
  | (inr _, w1) => w1
  end.

(** Runs pending timers until none is left; [None] when [fuel] timers
    were not enough. *)
Fixpoint run_timers (fuel : nat) (w : World S) : option (World S) :=
  match timers w with
  | [] => Some w
  | t :: rest =>
      match fuel with
      | O => None
      | Datatypes.S fuel' => run_timers fuel' (fire_next t rest w)
      end
  end.

End Pipeline.

Arguments sendQueuedItems READ_SERVER_BASE_URL {S database}.
Arguments fire READ_SERVER_BASE_URL {S database}.
Arguments fire_next READ_SERVER_BASE_URL {S database}.
Arguments run_timers READ_SERVER_BASE_URL {S database}.

(* ================================================================== *)
(** ** An in-memory store *)

(** Modelled from the spec: the persistent store ([database.get],
    [insert], [update], [deleteWhere]) is the chatbot framework's Mongo
    adapter, an external collaborator whose code is not part of the
    repository.  The design document asks of it "collection-scoped
    CRUD-with-filter/sort/skip/limit semantics": [get] is a "paged,
    sorted, filtered read", [insert] a "durable single-record write",
    [update] supports "a set-add idempotent mutation operator" ("add is
    a no-op if present"), [deleteWhere] is a "bulk delete by predicate
    (here, identifier-in-set)", and a queued item carries "an implicit
    insertion-order timestamp". *)
Record Mem := {
  users : list User;
  articles : list Article;
  queue : list QueueItem;
  clock : nat
}.

(** Modelled from the spec: the store's "sorted" read, as a stable
    insertion sort on the ascending key. *)
Fixpoint insert_sorted {A} (leb : A -> A -> bool) (x : A) (l : list A)
  : list A :=
  match l with
  | [] => [x]
  | y :: rest => if leb x y then x :: l else y :: insert_sorted leb x rest
  end.

Definition sort_by {A} (leb : A -> A -> bool) (l : list A) : list A :=
  fold_right (insert_sorted leb) [] l.

(** Modelled from the spec: the store's "skip/limit" paging. *)
Definition paginate {A} (skip limit : option nat) (l : list A) : list A :=
  let rest := skipn (default_to 0 skip) l in
  match limit with
  | Some n => firstn n rest
  | None => rest
  end.

Definition mem_docs {A} (c : collection A) (s : Mem) : list A :=
  match c in collection T return list T with
  | User_collection => users s
  | Article_collection => articles s
  | QUEUE_COLLECTION => queue s
  end.

(** Modelled from the spec: the store's "paged, sorted, filtered read":
    the documents of the collection that match, in sort order, from
    [skip], at most [limit] of them. *)
Definition mem_find {A} (c : collection A) (conditions : A -> bool)
    (options : Options A) (s : Mem) : list A :=
  paginate (skip options) (limit options)
    (sort_by (sort options) (filter conditions (mem_docs c s))).

Definition mem_get {A} (c : collection A) (conditions : A -> bool)
    (options : Options A) (s : Mem) : exn + option (list A) :=
  inr (Some (mem_find c conditions options s)).

(** Modelled from the spec: the article lookup "queries for the single
    earliest-by-publish-date article matching", so a read taken as one
    record answers with the first document of the sorted matches, or
    with nothing. *)
Definition mem_get_record {A} (c : collection A) (conditions : A -> bool)
    (options : Options A) (s : Mem) : exn + option A :=
  inr (hd_error (mem_find c conditions options s)).

(** Modelled from the spec: a queued item has "a unique identifier" and
    "an implicit insertion-order timestamp"; the store takes both from
    its insertion counter. *)
Definition fresh_id (n : nat) : ObjectId :=
  ("q" ++ NilEmpty.string_of_uint (Nat.to_uint n))%string.

(** Modelled from the spec: the store's "durable single-record write". *)
Definition mem_insert (_ : collection QueueItem) (d : QueueData) (s : Mem)
  : exn + Mem :=
  inr {| users := users s;
         articles := articles s;
         queue := queue s ++ [ {| queue_id := fresh_id (clock s);
                                  queue_data := d;
                                  addedDate := Z.of_nat (clock s) |} ];
         clock := Datatypes.S (clock s) |}.

(** Modelled from the spec: [$addToSet] is the store's "set-add
    idempotent mutation operator" ("add is a no-op if present"): the
    value is appended unless the array holds it already. *)
Definition addToSet (x : ObjectId) (l : list ObjectId) : list ObjectId :=
  if existsb (String.eqb x) l then l else l ++ [x].

Definition apply_mutation (m : Mutation) (a : Article) : Article :=
  match m with
  | addToSet_receivedByUsers id =>
      {| article_id := article_id a;
         feedId := feedId a;
         title := title a;
         description := description a;
         imageUrl := imageUrl a;
         articleDate := articleDate a;
         isPublished := isPublished a;
         isPriority := isPriority a;
         _receivedByUsers := addToSet id (_receivedByUsers a) |}
  end.

(** Modelled from the spec: the store's [update]; the document updated
    is the stored one with the given record's [_id]. *)
Definition mem_update (_ : collection Article) (a : Article) (m : Mutation)
    (s : Mem) : exn + Mem :=
  inr {| users := users s;
         articles :=
           map (fun d => if String.eqb (article_id d) (article_id a)
                         then apply_mutation m d else d) (articles s);
         queue := queue s;
         clock := clock s |}.

(** Modelled from the spec: the store's "bulk delete by predicate (here,
    identifier-in-set)", [{ _id: { $in: ids } }]. *)
Definition mem_deleteWhere (_ : collection QueueItem) (ids : list ObjectId)
    (s : Mem) : exn + Mem :=
  inr {| users := users s;
         articles := articles s;
         queue :=
           filter (fun q => negb (existsb (String.eqb (queue_id q)) ids))
             (queue s);
         clock := clock s |}.

#[export] Instance MemDatabase : Database Mem := {
  get := @mem_get;
  get_record := @mem_get_record;
  insert := mem_insert;
  update := mem_update;
  deleteWhere := mem_deleteWhere
}.

(** A fresh process over a store: nothing recorded, no timer pending. *)
Definition boot {S} (s : S) : World S :=
  {| db := s; trace := []; timers := [] |}.

(** *** Sample data *)

Definition reliable : Sender := fun _ _ _ => None.

(** A channel that throws on every message for the user [id]. *)
Definition fails_for (id : ObjectId) : Sender :=
  fun _ u _ =>
    if String.eqb (user_id u) id then Some (Failure "channel error")
    else None.

(** Sample users are numbered from 1000, so that their identifiers sort
    as their numbers do. *)
Definition sample_user (n : nat) : User :=
  {| user_id :=
       ("u" ++ NilEmpty.string_of_uint (Nat.to_uint (1000 + n)))%string;
     profile := {| created := 100%Z |};
     bot := {| disabled := None |} |}.

Definition sample_article (id : ObjectId) (date : Date) : Article :=
  {| article_id := id;
     feedId := "feed";
     title := "Title";
     description := "Description";
     imageUrl := "http://img";
     articleDate := date;
     isPublished := Some true;
     isPriority := Some true;
     _receivedByUsers := [] |}.

Definition sample_item (a : Article) (n : nat) : QueueItem :=
  {| queue_id := fresh_id n;
     queue_data := {| userData := sample_user n; articleData := a |};
     addedDate := Z.of_nat n |}.

(** [n] users, none disabled, and one priority article published after
    all of them signed up; nothing queued. *)
Definition users_store (n : nat) : Mem :=
  {| users := map sample_user (seq 0 n);
     articles := [sample_article "a1" 101%Z];
     queue := [];
     clock := 0 |}.

(** [m] obligations left in the queue for the article ["a1"]; no user
    left to select. *)
Definition queued_store (m : nat) : Mem :=
  {| users := [];
     articles := [sample_article "a1" 101%Z];
     queue := map (sample_item (sample_article "a1" 101%Z)) (seq 0 m);
     clock := m |}.

Definition sample_url : string := "http://read".

(** One obligation queued for a user who has been disabled since. *)
Definition disabled_user : User :=
  {| user_id := "u7";
     profile := {| created := 100%Z |};
     bot := {| disabled := Some true |} |}.

Definition disabled_item : QueueItem :=
  {| queue_id := fresh_id 0;
     queue_data := {| userData := disabled_user;
                      articleData := sample_article "a1" 101%Z |};
     addedDate := 0%Z |}.

Definition disabled_store : Mem :=
  {| users := [disabled_user];
     articles := [sample_article "a1" 101%Z];
     queue := [disabled_item];
     clock := 1 |}.

(** *** Whole runs

    A pass of the selector: the call from the first batch, then the
    timers it leaves behind until none is pending. *)
Definition selector_pass (url : string) (s : Mem) : option (World Mem) :=
  run_timers url 2 (snd (queueBreakingNewsItems None (boot s))).

(** A drain run of the dispatcher: the call from the first batch, then
    the timers it leaves behind until none is pending. *)
Definition drain_run (url : string) (send : Sender) (s : Mem)
  : option (World Mem) :=
  run_timers url (Datatypes.S (List.length (queue s)))
    (snd (sendQueuedItems url MessageObject (Some send) None (boot s))).

(** The users that have an obligation in the queue. *)
Definition queued_for (s : Mem) : list ObjectId :=
  map (fun q => user_id (userData (queue_data q))) (queue s).

Definition is_send_to (id : ObjectId) (ev : Event) : bool :=
  match ev with
  | Send u _ _ => String.eqb (user_id u) id
  | _ => false
  end.


(** A store that cannot be reached: a read answers with nothing, a write
    throws. *)
#[export] Instance AbsentDatabase : Database unit := {
  get := fun _ _ _ _ _ => inr None;
  get_record := fun _ _ _ _ _ => inr None;
  insert := fun _ _ _ => inl (Failure "no connection");
  update := fun _ _ _ _ => inl (Failure "no connection");
  deleteWhere := fun _ _ _ => inl (Failure "no connection")
}.

(** The design document's words for the article a user is owed: "not yet
    received by this user, published after user's profile creation,
    [isPublished] not explicitly false, [isPriority] true". *)
Definition eligible (u : User) (a : Article) : Prop :=
  ~ In (user_id u) (_receivedByUsers a) /\
  (created (profile u) < articleDate a)%Z /\
  isPublished a <> Some false /\
  isPriority a = Some true.

(** An article without its received-set: everything a received-set
    update must leave alone. *)
Definition forget_received (a : Article) : Article :=
  {| article_id := article_id a;
     feedId := feedId a;
     title := title a;
     description := description a;
     imageUrl := imageUrl a;
     articleDate := articleDate a;
     isPublished := isPublished a;
     isPriority := isPriority a;
     _receivedByUsers := [] |}.

(** The options [getBatchOfQueuedItems] and [getBatchOfUsers] pass to
    [database.get] for the batch starting at [skip]. *)
Definition queue_options (skip : nat) : Options QueueItem :=
  {| sort := asc_date addedDate; skip := Some skip;
     limit := Some BATCH_SIZE |}.

Definition user_options (skip : nat) : Options User :=
  {| sort := asc_id user_id; skip := Some skip; limit := Some BATCH_SIZE |}.

(** *** Reading the record of events *)

(** Events that change a collection. *)
Definition is_write (ev : Event) : bool :=
  match ev with
  | Insert _ _ | Update _ _ _ | DeleteWhere _ _ => true
  | _ => false
  end.

Definition is_send (ev : Event) : bool :=
  match ev with
  | Send _ _ _ => true
  | _ => false
  end.

(** The paged reads that open a batch of the dispatcher or of the
    selector (the article lookups are reads, too, but not of a batch). *)
Definition is_batch_read (ev : Event) : bool :=
  match ev with
  | Get name _ => negb (String.eqb name "Article")
  | _ => false
  end.

(** What the selector's loop may record: article lookups and inserts
    into the queue collection. *)
Definition is_selector_event (ev : Event) : bool :=
  match ev with
  | Get name _ => String.eqb name "Article"
  | Insert name _ => String.eqb name "BreakingNewsQueuedItem"
  | _ => false
  end.

(** The two sends the dispatcher owes for one queued item, in order. *)
Definition sends_of (url : string) (item : QueueItem) : list Event :=
  let u := userData (queue_data item) in
  let a := articleData (queue_data item) in
  [ Send u (outgoing u alert_content) None;
    Send u (outgoing u (carousel_for url u a)) None ].

(** The received-set update the dispatcher owes for one queued item. *)
Definition update_of (item : QueueItem) : Event :=
  Update "Article" (articleData (queue_data item))
    (addToSet_receivedByUsers (user_id (userData (queue_data item)))).

(** *** What a batch of users is owed *)

(** The article a user is owed, given the stored articles: the first of
    the matching ones in publish order. *)
Definition owed (stored : list Article) (u : User) : option Article :=
  hd_error (sort_by (asc_date articleDate)
              (filter (article_conditions u) stored)).

(** The obligations a batch of users is owed, in the order of the
    batch. *)
Definition obligations (stored : list Article) (recUsers : list User)
  : list QueueData :=
  flat_map (fun u => match owed stored u with
                     | Some a => [ {| userData := u; articleData := a |} ]
                     | None => []
                     end) recUsers.

(** The callback [queueBreakingNewsItems] registers after the batch that
    starts at [skip]. *)
Definition selector_callback (skip : nat) : Timer :=
  {| bound_MessageObject := number_value (skip + BATCH_SIZE);
     bound_sendMessage := None;
     bound_skip := None |}.

(** The read-link of a card: the [payload] of its only button. *)
Definition read_link (c : Content) : option string :=
  match c with
  | carousel_content {| elements := [ {| buttons := [ b ] |} ] |} _ =>
      Some (payload b)
  | _ => None
  end.

(** The queue documents the in-memory store makes of the records
    inserted one after the other, starting at insertion counter [c]. *)
Fixpoint enqueue_from (c : nat) (ds : list QueueData) : list QueueItem :=
  match ds with
  | [] => []
  | d :: rest =>
      {| queue_id := fresh_id c; queue_data := d; addedDate := Z.of_nat c |}
      :: enqueue_from (Datatypes.S c) rest
  end.

(** Articles that changed only by gaining received-set entries. *)
Definition grown (before after : list Article) : Prop :=
  Forall2 (fun a a' => forget_received a' = forget_received a /\
                       incl (_receivedByUsers a) (_receivedByUsers a'))
    before after.

(* ================================================================== *)
(** ** Functions that wait: the event loop between awaited operations

    While a function waits at an [await], a timer that has become due
    starts its callback, and a callback that was waiting goes on.  The
    functions of the module are written here as the operations they
    perform one after the other; each operation is a computation of the
    module above, and takes effect in one piece. *)

Section Tasks.

Variable READ_SERVER_BASE_URL : string.

Context {S : Type} {database : Database S}.

(** An [async] function on its way: it has returned, it has thrown, or
    it waits for one operation on the world and goes on with the answer.
    An operation that throws ends the function with that error: nothing
    in the module catches. *)
Inductive Async (R : Type) : Type :=
| Return (r : R)
| Raise (e : exn)
| Await (A : Type) (op : M S A) (k : A -> Async R).

Arguments Return {R} r.
Arguments Raise {R} e.
Arguments Await {R A} op k.

Fixpoint and_then {R R'} (t : Async R) (k : R -> Async R') : Async R' :=
  match t with
  | Return r => k r
  | Raise e => Raise e
  | Await op k1 => Await op (fun a => and_then (k1 a) k)
  end.

(** One operation: a store call or a send that is awaited, or the
    synchronous statements between two of them. *)
Definition perform {A} (op : M S A) : Async A :=
  Await op (fun a => Return a).

Declare Scope task_scope.
Delimit Scope task_scope with task.
Notation "x <- t ;; k" := (and_then t (fun x => k))
  (at level 61, t at next level, right associativity) : task_scope.
Notation "t ;; k" := (and_then t (fun _ => k))
  (at level 61, right associativity) : task_scope.
Local Open Scope task_scope.

Fixpoint for_of_task {A B} (xs : list A) (body : A -> B -> Async B)
    (acc : B) : Async B :=
  match xs with
  | [] => Return acc
  | x :: rest => acc1 <- body x acc ;; for_of_task rest body acc1
  end.

(** A promise of [Promise.all] settles whatever it does; what it did is
    kept for the end. *)
Definition settle (p : M S unit) : M S (exn + unit) :=
  fun w => let (r, w1) := p w in (inr r, w1).

(** [await Promise.all(promises)], one promise settling at a time;
    [rejected] is the first rejection so far. *)
Fixpoint Promise_all_task (promises : list (M S unit))
    (rejected : option exn) : Async unit :=
  match promises with
  | [] => match rejected with
          | Some e => Raise e
          | None => Return tt
          end
  | p :: rest =>
      r <- perform (settle p) ;;
      Promise_all_task rest
        (match rejected, r with
         | Some e, _ => Some e
         | None, inl e => Some e
         | None, inr _ => None
         end)
  end.

(** The body of the dispatcher's loop, operation by operation. *)
Definition send_item_task (MessageObject : MessageObjectT)
    (sendMessage : option Sender) (recQueueItem : QueueItem)
    (expended : list ObjectId * list QueueData)
  : Async (list ObjectId * list QueueData) :=
  let _id := queue_id recQueueItem in
  let userData := userData (queue_data recQueueItem) in
  let articleData := articleData (queue_data recQueueItem) in
  messages <- perform (constructBreakingNewMessages READ_SERVER_BASE_URL
                         userData articleData MessageObject) ;;
  perform (call_sendMessage sendMessage userData (fst messages)) ;;
  perform (call_sendMessage sendMessage userData (snd messages)) ;;
  Return (fst expended ++ [_id],
          snd expended ++ [ {| userData := userData;
                               articleData := articleData |} ]).

(** [sendQueuedItems], operation by operation. *)
Definition sendQueuedItems_task (MessageObject : MessageObjectT)
    (sendMessage : option Sender) (skip : option nat) : Async unit :=
  let skip := default_to 0 skip in
  recQueueItems <- perform (getBatchOfQueuedItems (Some skip)) ;;
  if no_length recQueueItems then Return tt
  else
    expended <- for_of_task recQueueItems
                  (send_item_task MessageObject sendMessage) ([], []) ;;
    let expendedQueueItemIds := fst expended in
    let expendedQueueItemData := snd expended in
    let markAsReceivedPromises :=
      map mark_as_received expendedQueueItemData in
    Promise_all_task markAsReceivedPromises None ;;
    perform (database_deleteWhere QUEUE_COLLECTION expendedQueueItemIds) ;;
    let numCompletedItems := skip + BATCH_SIZE in
    let fnRecurse :=
      {| bound_MessageObject := MessageObject;
         bound_sendMessage := sendMessage;
         bound_skip := Some numCompletedItems |} in
    perform (setTimeout fnRecurse BATCH_DELAY_MS).

(** The body of the selector's loop, operation by operation. *)
Definition queue_user_task (recUser : User) (_ : unit) : Async unit :=
  recArticle <- perform (getNextBreakingNewsForUser recUser) ;;
  match recArticle with
  | None => Return tt
  | Some recArticle =>
      perform (database_insert QUEUE_COLLECTION
                 {| userData := recUser; articleData := recArticle |})
  end.

(** [queueBreakingNewsItems], operation by operation. *)
Definition queueBreakingNewsItems_task (skip : option nat) : Async unit :=
  let skip := default_to 0 skip in
  recUsers <- perform (getBatchOfUsers (Some skip)) ;;
  if no_length recUsers then Return tt
  else
    for_of_task recUsers queue_user_task tt ;;
    let numCompletedUsers := skip + BATCH_SIZE in
    let fnRecurse :=
      {| bound_MessageObject := number_value numCompletedUsers;
         bound_sendMessage := None;
         bound_skip := None |} in
    perform (setTimeout fnRecurse BATCH_DELAY_MS).

(** Sends the most recent outstanding breaking news stories to users. *)
Definition sendOutstanding (MessageObject : MessageObjectT)
    (sendMessage : option Sender) : Async unit :=
  sendQueuedItems_task MessageObject sendMessage None ;;
  queueBreakingNewsItems_task None ;;
  sendQueuedItems_task MessageObject sendMessage None.

(** The callback of a timer that has become due. *)
Definition fire_task (t : Timer) : Async unit :=
  sendQueuedItems_task (bound_MessageObject t) (bound_sendMessage t)
    (bound_skip t).

(** A function run with nothing else in between. *)
Fixpoint run_alone {R} (t : Async R) : M S R :=
  match t with
  | Return r => ret r
  | Raise e => throw e
  | Await op k =>
      fun w =>
        match op w with
        | (inl e, w1) => (inl e, w1)
        | (inr a, w1) => run_alone (k a) w1
        end
  end.

(** *** The event loop

    The caller's invocation waits at an operation; so does every
    callback that was started and has not finished; the timers not yet
    due are in the world.  What the caller's own operations recorded is
    kept apart from what the callbacks did in between. *)
Record Machine := {
  world : World S;
  caller : Async unit;
  callbacks : list (Async unit);
  done_by_caller : list Event      (* newest first *)
}.

Definition start (w : World S) (t : Async unit) : Machine :=
  {| world := w; caller := t; callbacks := []; done_by_caller := [] |}.

(** The events recorded between two worlds. *)
Definition since (w w1 : World S) : list Event :=
  firstn (List.length (trace w1) - List.length (trace w)) (trace w1).

Fixpoint set_nth {A} (i : nat) (x : A) (l : list A) : list A :=
  match l, i with
  | [], _ => []
  | _ :: rest, O => x :: rest
  | y :: rest, Datatypes.S j => y :: set_nth j x rest
  end.

(** What the event loop does next: the operation the caller waits for
    takes effect and the caller goes on to its next one; the same for
    the callback at some position; or the oldest timer becomes due and
    its callback starts.  A callback that throws has no caller to reject
    to: the rejection is recorded. *)
Inductive turn :=
| resume_caller
| resume_callback (i : nat)
| timer_due.

Definition step (c : turn) (m : Machine) : Machine :=
  match c with
  | resume_caller =>
      match caller m with
      | Await op k =>
          let (r, w1) := op (world m) in
          {| world := w1;
             caller := match r with inl e => Raise e | inr a => k a end;
             callbacks := callbacks m;
             done_by_caller := since (world m) w1 ++ done_by_caller m |}
      | _ => m
      end
  | resume_callback i =>
      match nth_error (callbacks m) i with
      | Some (Await op k) =>
          let (r, w1) := op (world m) in
          match r with
          | inl e =>
              {| world := {| db := db w1;
                             trace := UnhandledRejection e :: trace w1;
                             timers := timers w1 |};
                 caller := caller m;
                 callbacks := set_nth i (Raise e) (callbacks m);
                 done_by_caller := done_by_caller m |}
          | inr a =>
              {| world := w1;
                 caller := caller m;
                 callbacks := set_nth i (k a) (callbacks m);
                 done_by_caller := done_by_caller m |}
          end
      | _ => m
      end
  | timer_due =>
      match timers (world m) with
      | [] => m
      | t :: rest =>
          {| world := {| db := db (world m); trace := trace (world m);
                         timers := rest |};
             caller := caller m;
             callbacks := callbacks m ++ [fire_task t];
             done_by_caller := done_by_caller m |}
      end
  end.

Fixpoint run (turns : list turn) (m : Machine) : Machine :=
  match turns with
  | [] => m
  | c :: rest => run rest (step c m)
  end.

(** The last state of a function with the given outcome. *)
Definition ended {R} (r : exn + R) : Async R :=
  match r with
  | inl e => Raise e
  | inr a => Return a
  end.

(** *** What the operations of a function record *)




End Tasks.

Arguments Async : clear implicits.
Arguments Machine : clear implicits.
Arguments Return {S R} r.
Arguments Raise {S R} e.
Arguments Await {S R A} op k.
Arguments sendQueuedItems_task READ_SERVER_BASE_URL {S database}.
Arguments sendOutstanding READ_SERVER_BASE_URL {S database}.
Arguments fire_task READ_SERVER_BASE_URL {S database}.
Arguments step READ_SERVER_BASE_URL {S database}.
Arguments run READ_SERVER_BASE_URL {S database}.

(** A callback that changes nothing in a store whose queue is empty, and
    sends nothing. *)
Fixpoint idle_on_an_empty_queue (c : Async Mem unit) : Prop :=
  match c with
  | Await op k =>
      forall w, queue (db w) = [] ->
        db (snd (op w)) = db w /\
        filter is_send (trace (snd (op w))) = filter is_send (trace w) /\
        match fst (op w) with
        | inr a => idle_on_an_empty_queue (k a)
        | inl _ => True
        end
  | _ => True
  end.

(** A function that does not wait any more. *)
Definition has_ended {S R} (t : Async S R) : bool :=
  match t with
  | Await _ _ => false
  | _ => true
  end.

(** Two worlds with the same store and the same sends so far. *)
Definition same_store {S} (w w' : World S) : Prop :=
  db w = db w' /\ filter is_send (trace w) = filter is_send (trace w').

(** A callback that only reads: none of its operations changes the
    store, sends, or registers a timer. *)
Fixpoint reader {S} (c : Async S unit) : Prop :=
  match c with
  | Await op k =>
      forall w,
        same_store (snd (op w)) w /\
        timers (snd (op w)) = timers w /\
        forall a, fst (op w) = inr a -> reader (k a)
  | _ => True
  end.

(** An operation that cannot tell two such worlds apart. *)
Definition blind {S A} (op : M S A) : Prop :=
  forall w w', same_store w w' ->
    fst (op w) = fst (op w') /\ same_store (snd (op w)) (snd (op w')).

Section Tame.

Variable READ_SERVER_BASE_URL : string.
Context {S : Type} {database : Database S}.

(** A function whose operations are blind and whose timers start
    readers; with [last], its last operation may register any timer. *)
Fixpoint tame {R} (last : bool) (t : Async S R) : Prop :=
  match t with
  | Await op k =>
      blind op /\
      forall w,
        ((exists ts,
            timers (snd (op w)) = timers w ++ ts /\
            Forall (fun fn => reader (fire_task READ_SERVER_BASE_URL fn))
              ts) \/
         (last = true /\ forall a, has_ended (k a) = true)) /\
        forall a, fst (op w) = inr a -> tame last (k a)
  | _ => True
  end.

End Tame.

Arguments tame READ_SERVER_BASE_URL {S database R}.

(** An operation that is blind and registers no timer. *)
Definition plain {S A} (op : M S A) : Prop :=
  blind op /\ forall w, timers (snd (op w)) = timers w.

(* ================================================================== *)
(** ** The entry script: the options of the configuration loader

    The start-up script computes the options it hands to the
    configuration loader from two environment variables.
    [process.env.X] is a string or [undefined] ([None]). *)

(** [Boolean(x)]: a string is true unless it is empty. *)
Definition to_boolean (x : option string) : bool :=
  match x with
  | Some s => negb (String.eqb s "")
  | None => false
  end.

(** [x || d] *)
Definition or_else (x : option string) (d : string) : string :=
  match x with
  | Some s => if String.eqb s "" then d else s
  | None => d
  end.

(** [x] inside a template string. *)
Definition in_template (x : option string) : string :=
  match x with
  | Some s => s
  | None => "undefined"
  end.

(** The third argument of [require(`config-ninja`).init]. *)
Record ConfigOptions := {
  localConfig : list string;
  requireLocalConfig : bool
}.

Section EntryScript.

(** Node's [path.join], on two segments. *)
Variable path_join : string -> string -> string.

Definition config_options (PROVIDER_ID NODE_ENV : option string)
  : ConfigOptions :=
  let providerId := PROVIDER_ID in
  let loadProviderConfig := to_boolean providerId in
  let env := or_else NODE_ENV "development" in
  let localConfigName :=
    path_join "providers" (in_template providerId ++ "." ++ env) in
  {| localConfig :=
       if to_boolean (Some localConfigName) then [localConfigName] else [];
     requireLocalConfig := loadProviderConfig |}.

End EntryScript.

(** A sample [path.join]: the segments with a slash between them. *)
Definition slash_join (a b : string) : string := (a ++ "/" ++ b)%string.

(* ================================================================== *)
(** ** Facts that hold over every store *)

Section PipelineFacts.

Variable url : string.
Context {S : Type} {database : Database S}.

Lemma queue_data_eta (d : QueueData) :
  {| userData := userData d; articleData := articleData d |} = d.
Proof. destruct d; reflexivity. Qed.

(** One [await sendMessage(...)]: the store and the timers are not
    touched; either the send is recorded as delivered, or the call
    throws what the channel threw (or a [TypeError] when there is no
    function to call, and then nothing is recorded). *)
Lemma call_sendMessage_cases sendMessage u m (w : World S) :
  let (r, w') := call_sendMessage sendMessage u m w in
  db w' = db w /\ timers w' = timers w /\
  ((r = inr tt /\ trace w' = Send u m None :: trace w)
   \/ (exists e, r = inl e /\ trace w' = Send u m (Some e) :: trace w)
   \/ (exists e, r = inl e /\ trace w' = trace w /\ sendMessage = None)).
Proof.
  destruct sendMessage as [f|]; cbn.
  - destruct (f (trace w) u m) as [e|] eqn:Hf; cbn.
    + repeat split; right; left; exists e; auto.
    + repeat split; left; auto.
  - repeat split; right; right; eexists; eauto.
Qed.

(** The dispatcher's loop over a page.  Whatever happens, the store and
    the timers are as before and only sends were recorded; a send
    recorded as failed is the error the loop ends with. *)
Lemma send_loop_frame MessageObject sendMessage :
  forall items acc (w : World S) r w',
    for_of items (send_item url MessageObject sendMessage) acc w = (r, w') ->
    db w' = db w /\ timers w' = timers w /\
    exists added,
      trace w' = added ++ trace w /\
      Forall (fun ev => is_send ev = true) added /\
      (forall u m e, In (Send u m (Some e)) added -> r = inl e).
Proof.
  induction items as [|item items IH]; intros acc w r w' Hrun.
  - cbn in Hrun. inversion Hrun; subst.
    repeat split; exists []; repeat split; auto; intros ? ? ? [].
  - cbn [for_of] in Hrun. unfold bind at 1 in Hrun.
    destruct (send_item url MessageObject sendMessage item acc w)
      as [[e|acc1] w1] eqn:Hitem.
    + (* the item's sends threw *)
      inversion Hrun; subst; clear Hrun.
      unfold send_item, bind, constructBreakingNewMessages in Hitem.
      destruct MessageObject; cbn in Hitem.
      2:{ inversion Hitem; subst. repeat split.
          exists []; repeat split; auto; intros ? ? ? []. }
      set (u := userData (queue_data item)) in *.
      pose proof (call_sendMessage_cases sendMessage u
                    (outgoing u alert_content) w) as H1.
      destruct (call_sendMessage sendMessage u (outgoing u alert_content) w)
        as [[e1|[]] w2].
      * inversion Hitem; subst.
        destruct H1 as (Hd & Ht & [[Hr _]|[(e' & Hr & Htr)|(e' & Hr & Htr & _)]]);
          try discriminate; inversion Hr; subst; repeat split; auto.
        -- exists [Send u (outgoing u alert_content) (Some e')].
           repeat split; auto.
           intros ? ? ? [Hin|[]]. inversion Hin; subst; auto.
        -- exists []; repeat split; auto; intros ? ? ? [].
      * destruct H1 as (Hd & Ht & [[_ Htr]|[(e' & Hr & _)|(e' & Hr & _)]]);
          try discriminate.
        pose proof (call_sendMessage_cases sendMessage u
           (outgoing u (carousel_for url u (articleData (queue_data item)))) w2)
          as H2.
        destruct (call_sendMessage sendMessage u
           (outgoing u (carousel_for url u (articleData (queue_data item)))) w2)
          as [[e2|[]] w3]; cbn in Hitem; inversion Hitem; subst.
        destruct H2 as (Hd2 & Ht2 & [[Hr _]|[(e' & Hr & Htr2)|(e' & Hr & Htr2 & _)]]);
          try discriminate; inversion Hr; subst;
          (split; [congruence|split; [congruence|]]).
        -- eexists [Send u _ (Some e'); Send u _ None].
           rewrite Htr2, Htr. repeat split; auto.
           intros ? ? ? [Hin|[Hin|[]]]; inversion Hin; subst; auto.
        -- eexists [Send u _ None].
           rewrite Htr2, Htr. repeat split; auto.
           intros ? ? ? [Hin|[]]; inversion Hin.
    + (* the item was sent; go on with the rest *)
      unfold send_item, bind, constructBreakingNewMessages in Hitem.
      destruct MessageObject; cbn in Hitem; [|discriminate].
      set (u := userData (queue_data item)) in *.
      pose proof (call_sendMessage_cases sendMessage u
                    (outgoing u alert_content) w) as H1.
      destruct (call_sendMessage sendMessage u (outgoing u alert_content) w)
        as [[e1|[]] w2]; [discriminate|].
      destruct H1 as (Hd & Ht & [[_ Htr]|[(e' & Hr & _)|(e' & Hr & _)]]);
        try discriminate.
      pose proof (call_sendMessage_cases sendMessage u
         (outgoing u (carousel_for url u (articleData (queue_data item)))) w2)
        as H2.
      destruct (call_sendMessage sendMessage u
         (outgoing u (carousel_for url u (articleData (queue_data item)))) w2)
        as [[e2|[]] w3]; cbn in Hitem; [discriminate|].
      inversion Hitem; subst; clear Hitem.
      destruct H2 as (Hd2 & Ht2 & [[_ Htr2]|[(e' & Hr & _)|(e' & Hr & _)]]);
        try discriminate.
      destruct (IH _ _ _ _ Hrun) as (Hd3 & Ht3 & added & Htr3 & Hall & Hfail).
      split; [congruence|]. split; [congruence|].
      exists (added ++ [Send u (outgoing u (carousel_for url u
                 (articleData (queue_data item)))) None;
                        Send u (outgoing u alert_content) None]).
      rewrite Htr3, Htr2, Htr, <- app_assoc. repeat split; auto.
      * apply Forall_app; split; auto.
      * intros u' m' e' Hin. apply in_app_or in Hin.
        destruct Hin as [Hin|[Hin|[Hin|[]]]]; try discriminate; eauto.
Qed.

(** When the loop gets through the page, it has recorded the alert and
    the card of every item in fetch order and collected the items'
    identifiers and data. *)
Lemma send_loop_done MessageObject sendMessage :
  forall items acc (w : World S) acc' w',
    for_of items (send_item url MessageObject sendMessage) acc w
      = (inr acc', w') ->
    acc' = (fst acc ++ map queue_id items,
            snd acc ++ map queue_data items) /\
    trace w' = rev (flat_map (sends_of url) items) ++ trace w.
Proof.
  induction items as [|item items IH]; intros acc w acc' w' Hrun.
  - cbn in Hrun. inversion Hrun; subst. cbn.
    rewrite !app_nil_r. destruct acc'; auto.
  - cbn [for_of] in Hrun. unfold bind at 1 in Hrun.
    destruct (send_item url MessageObject sendMessage item acc w)
      as [[e|acc1] w1] eqn:Hitem; [discriminate|].
    unfold send_item, bind, constructBreakingNewMessages in Hitem.
    destruct MessageObject; cbn in Hitem; [|discriminate].
    set (u := userData (queue_data item)) in *.
    pose proof (call_sendMessage_cases sendMessage u
                  (outgoing u alert_content) w) as H1.
    destruct (call_sendMessage sendMessage u (outgoing u alert_content) w)
      as [[e1|[]] w2]; [discriminate|].
    destruct H1 as (_ & _ & [[_ Htr]|[(e' & Hr & _)|(e' & Hr & _)]]);
      try discriminate.
    pose proof (call_sendMessage_cases sendMessage u
       (outgoing u (carousel_for url u (articleData (queue_data item)))) w2)
      as H2.
    destruct (call_sendMessage sendMessage u
       (outgoing u (carousel_for url u (articleData (queue_data item)))) w2)
      as [[e2|[]] w3]; cbn in Hitem; [discriminate|].
    inversion Hitem; subst; clear Hitem.
    destruct H2 as (_ & _ & [[_ Htr2]|[(e' & Hr & _)|(e' & Hr & _)]]);
      try discriminate.
    destruct (IH _ _ _ _ Hrun) as (Hacc & Htr3).
    split.
    + rewrite Hacc. subst u. cbn [fst snd map]. rewrite queue_data_eta.
      rewrite <- !app_assoc. reflexivity.
    + rewrite Htr3, Htr2, Htr. cbn [flat_map].
      rewrite rev_app_distr, <- app_assoc. reflexivity.
Qed.

(** [Promise.all] over the received-set updates: every update is
    issued, in the order of the page, and no timer is touched. *)
Lemma Promise_all_marks :
  forall data (w : World S) r w',
    Promise_all (map mark_as_received data) w = (r, w') ->
    trace w' =
      rev (map (fun d => Update "Article" (articleData d)
                  (addToSet_receivedByUsers (user_id (userData d)))) data)
      ++ trace w
    /\ timers w' = timers w.
Proof.
  induction data as [|d data IH]; intros w r w' Hrun.
  - cbn in Hrun. inversion Hrun; subst. auto.
  - cbn [map Promise_all] in Hrun.
    destruct (mark_as_received d w) as [r1 w1] eqn:H1.
    destruct (Promise_all (map mark_as_received data) w1) as [r2 w2] eqn:H2.
    inversion Hrun; subst; clear Hrun.
    destruct (IH _ _ _ H2) as (Htr & Htm).
    unfold mark_as_received, database_update, bind, log, write in H1.
    cbn in H1.
    assert (trace w1 = Update "Article" (articleData d)
              (addToSet_receivedByUsers (user_id (userData d))) :: trace w
            /\ timers w1 = timers w) as (Htr1 & Htm1).
    { destruct (update Article_collection (articleData d) _ (db w));
        inversion H1; subst; auto. }
    split; [|congruence].
    rewrite Htr, Htr1. cbn [map rev]. rewrite <- app_assoc. reflexivity.
Qed.

(** What one call of [sendQueuedItems] does up to its loop: it records
    the read of the batch and, when the batch has items, runs the loop
    over it from the world [w0] in which the read is recorded. *)
Lemma sendQueuedItems_unfold MessageObject sendMessage skip (w : World S) :
  let w0 := {| db := db w;
               trace := Get "BreakingNewsQueuedItem" (default_to 0 skip)
                        :: trace w;
               timers := timers w |} in
  sendQueuedItems url MessageObject sendMessage skip w =
  match get QUEUE_COLLECTION (fun _ => true)
          (queue_options (default_to 0 skip)) (db w) with
  | inl e => (inl e, w0)
  | inr answer =>
      match or_empty answer with
      | [] => (inr tt, w0)
      | page =>
          match for_of page (send_item url MessageObject sendMessage)
                  ([], []) w0 with
          | (inl e, w1) => (inl e, w1)
          | (inr expended, w1) =>
              match Promise_all (map mark_as_received (snd expended)) w1
              with
              | (inl e, w2) => (inl e, w2)
              | (inr _, w2) =>
                  (database_deleteWhere QUEUE_COLLECTION (fst expended) ;;
                   setTimeout
                     {| bound_MessageObject := MessageObject;
                        bound_sendMessage := sendMessage;
                        bound_skip :=
                          Some (default_to 0 skip + BATCH_SIZE) |}
                     BATCH_DELAY_MS) w2
              end
          end
      end
  end.
Proof.
  unfold sendQueuedItems, getBatchOfQueuedItems, database_get.
  unfold bind at 1 2 3. unfold log at 1. unfold read, queue_options.
  cbn [db default_to].
  destruct (get QUEUE_COLLECTION _ _ (db w)) as [e|answer]; [reflexivity|].
  unfold ret at 1. destruct (or_empty answer) as [|item page] eqn:Hpage.
  - reflexivity.
  - cbn [no_length]. unfold bind at 1.
    destruct (for_of _ _ _ _) as [[e|expended] w1]; [reflexivity|].
    unfold bind at 1.
    destruct (Promise_all _ w1) as [[e|?] w2]; reflexivity.
Qed.

(** The end of a batch: the delete is recorded, and the timer is
    registered only when the delete went through. *)
Lemma delete_then_reschedule ids t (w : World S) r w' :
  (database_deleteWhere QUEUE_COLLECTION ids ;;
   setTimeout t BATCH_DELAY_MS) w = (r, w') ->
  (r = inr tt /\
   trace w' = SetTimeout BATCH_DELAY_MS
              :: DeleteWhere "BreakingNewsQueuedItem" ids :: trace w /\
   timers w' = timers w ++ [t])
  \/ (exists e, r = inl e /\
      trace w' = DeleteWhere "BreakingNewsQueuedItem" ids :: trace w /\
      timers w' = timers w /\ db w' = db w).
Proof.
  unfold database_deleteWhere, setTimeout, bind, log, write. cbn.
  destruct (deleteWhere QUEUE_COLLECTION ids (db w)) as [e|s];
    intros H; inversion H; subst; cbn.
  - right. exists e. auto.
  - left. auto.
Qed.

(** The record of a batch the dispatcher gets through, newest event
    first. *)
Lemma dispatched_page_trace
    sendMessage skip (w w' : World S) page :
  get QUEUE_COLLECTION (fun _ => true)
    (queue_options (default_to 0 skip)) (db w) = inr (Some page) ->
  page <> [] ->
  sendQueuedItems url MessageObject sendMessage skip w = (inr tt, w') ->
  trace w' =
    SetTimeout BATCH_DELAY_MS
    :: DeleteWhere "BreakingNewsQueuedItem" (map queue_id page)
    :: rev (map update_of page)
    ++ rev (flat_map (sends_of url) page)
    ++ Get "BreakingNewsQueuedItem" (default_to 0 skip) :: trace w.
Proof.
  intros Hget Hpage Hrun.
  rewrite sendQueuedItems_unfold, Hget in Hrun. cbn [or_empty] in Hrun.
  destruct page as [|item page]; [congruence|].
  destruct (for_of (item :: page) _ _ _) as [[e|expended] w1] eqn:Hloop;
    [discriminate|].
  apply send_loop_done in Hloop. destruct Hloop as (Hexp & Htr1).
  cbn [fst snd app] in Hexp. subst expended. cbn [fst snd] in Hrun.
  destruct (Promise_all _ w1) as [[e|?] w2] eqn:Hmarks; [discriminate|].
  apply Promise_all_marks in Hmarks. destruct Hmarks as (Htr2 & _).
  apply delete_then_reschedule in Hrun.
  destruct Hrun as [(_ & Htr3 & _)|(e & He & _)]; [|discriminate].
  rewrite Htr3, Htr2, Htr1. cbn [trace].
  rewrite map_map. reflexivity.
Qed.

(** C5. Within a page the dispatcher gets through, the record shows,
    after the read of the page: for each item in fetch order its alert
    and then its card, each delivered before the next is attempted;
    then, and only then, the received-set updates of the page; then one
    batch delete naming exactly the identifiers of the page's items;
    then the registration of the next batch. *)
Theorem page_sends_then_marks_then_deletes
    sendMessage skip (w w' : World S) page :
  get QUEUE_COLLECTION (fun _ => true)
    (queue_options (default_to 0 skip)) (db w) = inr (Some page) ->
  page <> [] ->
  sendQueuedItems url MessageObject sendMessage skip w = (inr tt, w') ->
  history w' =
    history w
    ++ [Get "BreakingNewsQueuedItem" (default_to 0 skip)]
    ++ flat_map (sends_of url) page
    ++ map update_of page
    ++ [DeleteWhere "BreakingNewsQueuedItem" (map queue_id page);
        SetTimeout BATCH_DELAY_MS].
Proof.
  intros Hget Hpage Hrun. unfold history.
  rewrite (dispatched_page_trace _ _ _ Hget Hpage Hrun).
  change (SetTimeout BATCH_DELAY_MS
          :: DeleteWhere "BreakingNewsQueuedItem" (map queue_id page)
          :: rev (map update_of page)
          ++ rev (flat_map (sends_of url) page)
          ++ Get "BreakingNewsQueuedItem" (default_to 0 skip) :: trace w)
    with ([SetTimeout BATCH_DELAY_MS;
           DeleteWhere "BreakingNewsQueuedItem" (map queue_id page)]
          ++ rev (map update_of page)
          ++ rev (flat_map (sends_of url) page)
          ++ [Get "BreakingNewsQueuedItem" (default_to 0 skip)]
          ++ trace w).
  rewrite !rev_app_distr, !rev_involutive, <- !app_assoc.
  reflexivity.
Qed.

(** C3. When a send of a page throws, the call ends with that very
    error, and the store is exactly as it was before the call (so no
    article's received-set gained anything and every obligation of the
    page is still queued, also those already sent), no next batch is
    registered, and nothing the call did was a write. *)
Theorem failed_send_leaves_page_queued
    MessageObject sendMessage skip (w w' : World S) r added u m e :
  sendQueuedItems url MessageObject sendMessage skip w = (r, w') ->
  trace w' = added ++ trace w ->
  In (Send u m (Some e)) added ->
  r = inl e /\ db w' = db w /\ timers w' = timers w /\
  Forall (fun ev => is_write ev = false) added.
Proof.
  intros Hrun Hadded Hfailed.
  rewrite sendQueuedItems_unfold in Hrun.
  set (g := Get "BreakingNewsQueuedItem" (default_to 0 skip)) in *.
  assert (Hread : forall w0 : World S, trace w0 = g :: trace w ->
            w' = w0 -> False).
  { intros w0 Htr ->. rewrite Htr in Hadded.
    change (g :: trace w) with ([g] ++ trace w) in Hadded.
    apply app_inv_tail in Hadded. subst added.
    destruct Hfailed as [Hf|[]]. discriminate. }
  destruct (get QUEUE_COLLECTION _ _ (db w)) as [e0|answer].
  { inversion Hrun; subst. exfalso. eapply Hread; [|reflexivity]. reflexivity. }
  destruct (or_empty answer) as [|item page].
  { inversion Hrun; subst. exfalso. eapply Hread; [|reflexivity]. reflexivity. }
  destruct (for_of (item :: page) _ _ _) as [[e0|expended] w1] eqn:Hloop.
  - (* the loop threw: nothing after it ran *)
    inversion Hrun; subst; clear Hrun.
    apply send_loop_frame in Hloop.
    destruct Hloop as (Hdb & Htm & added1 & Htr & Hsends & Hsame).
    cbn [db trace timers] in *.
    rewrite Htr in Hadded.
    change (added1 ++ g :: trace w) with (added1 ++ [g] ++ trace w) in Hadded.
    rewrite app_assoc in Hadded. apply app_inv_tail in Hadded. subst added.
    apply in_app_or in Hfailed.
    destruct Hfailed as [Hf|[Hf|[]]]; [|discriminate].
    pose proof (Hsame _ _ _ Hf) as He. inversion He; subst e0.
    repeat split; auto.
    apply Forall_app; split.
    + eapply Forall_impl; [|exact Hsends].
      intros [] Hs; cbn in *; congruence.
    + repeat constructor.
  - (* the loop got through: no send of the page failed *)
    exfalso.
    apply send_loop_frame in Hloop.
    destruct Hloop as (_ & _ & added1 & Htr & _ & Hsame).
    cbn [db trace timers] in *.
    assert (Hrest : exists rest, trace w' = rest ++ trace w1 /\
              Forall (fun ev => is_send ev = false) rest).
    { destruct (Promise_all _ w1) as [[e1|?] w2] eqn:Hmarks;
        apply Promise_all_marks in Hmarks; destruct Hmarks as (Htr2 & _).
      - inversion Hrun; subst. eexists; split; [exact Htr2|].
        apply Forall_rev, Forall_map, Forall_forall. reflexivity.
      - apply delete_then_reschedule in Hrun.
        destruct Hrun as [(_ & Htr3 & _)|(e1 & _ & Htr3 & _)];
          rewrite Htr3, Htr2.
        + eexists (_ :: _ :: _); split; [reflexivity|].
          repeat constructor.
          apply Forall_rev, Forall_map, Forall_forall. reflexivity.
        + eexists (_ :: _); split; [reflexivity|].
          repeat constructor.
          apply Forall_rev, Forall_map, Forall_forall. reflexivity. }
    destruct Hrest as (rest & Htr' & Hrest).
    rewrite Htr', Htr in Hadded.
    change (rest ++ added1 ++ g :: trace w)
      with (rest ++ added1 ++ [g] ++ trace w) in Hadded.
    rewrite !app_assoc in Hadded. apply app_inv_tail in Hadded.
    subst added.
    apply in_app_or in Hfailed. destruct Hfailed as [Hf|[Hf|[]]];
      [|discriminate].
    apply in_app_or in Hf. destruct Hf as [Hf|Hf].
    + rewrite Forall_forall in Hrest. apply Hrest in Hf. discriminate.
    + apply Hsame in Hf. discriminate.
Qed.

(** C9. When the store answers the batch read with nothing instead of
    an array, [getBatchOfQueuedItems] and [getBatchOfUsers] return the
    empty array, and the dispatcher and the selector return normally
    after that one read: nothing else is done and no next batch is
    registered. *)
Theorem absent_batch_ends_the_loop
    MessageObject sendMessage from (w : World S) :
  get QUEUE_COLLECTION (fun _ => true) (queue_options from) (db w)
    = inr None ->
  get User_collection user_conditions (user_options from) (db w)
    = inr None ->
  let read_of name :=
    {| db := db w; trace := Get name from :: trace w;
       timers := timers w |} in
  getBatchOfQueuedItems (Some from) w
    = (inr [], read_of "BreakingNewsQueuedItem") /\
  getBatchOfUsers (Some from) w = (inr [], read_of "User") /\
  sendQueuedItems url MessageObject sendMessage (Some from) w
    = (inr tt, read_of "BreakingNewsQueuedItem") /\
  queueBreakingNewsItems (Some from) w = (inr tt, read_of "User").
Proof.
  intros Hq Hu. cbn zeta.
  unfold queueBreakingNewsItems, sendQueuedItems, getBatchOfQueuedItems,
    getBatchOfUsers, database_get, bind, log, read, ret.
  unfold queue_options, user_options in *. cbn [default_to db skip].
  rewrite Hq, Hu. cbn. auto.
Qed.

(** One call of the dispatcher records the read of its batch first,
    never reads a second batch, and registers at most one timer. *)
Lemma dispatcher_events MessageObject sendMessage skip (w w' : World S) r :
  sendQueuedItems url MessageObject sendMessage skip w = (r, w') ->
  exists rest ts,
    trace w' = rest ++ Get "BreakingNewsQueuedItem" (default_to 0 skip)
                       :: trace w /\
    Forall (fun ev => is_batch_read ev = false) rest /\
    timers w' = timers w ++ ts /\ List.length ts <= 1.
Proof.
  intros Hrun. rewrite sendQueuedItems_unfold in Hrun.
  set (g := Get "BreakingNewsQueuedItem" (default_to 0 skip)) in *.
  destruct (get QUEUE_COLLECTION _ _ (db w)) as [e0|answer].
  { inversion Hrun; subst. exists [], []. cbn.
    rewrite app_nil_r. auto. }
  destruct (or_empty answer) as [|item page].
  { inversion Hrun; subst. exists [], []. cbn.
    rewrite app_nil_r. auto. }
  destruct (for_of (item :: page) _ _ _) as [[e0|expended] w1] eqn:Hloop;
    apply send_loop_frame in Hloop;
    destruct Hloop as (_ & Htm & added1 & Htr & Hsends & _);
    cbn [db trace timers] in *;
    assert (Hadded1 : Forall (fun ev => is_batch_read ev = false) added1)
      by (eapply Forall_impl; [|exact Hsends];
          intros [] Hs; cbn in *; congruence).
  - inversion Hrun; subst. exists added1, []. rewrite app_nil_r. auto.
  - destruct (Promise_all _ w1) as [[e1|?] w2] eqn:Hmarks;
      apply Promise_all_marks in Hmarks; destruct Hmarks as (Htr2 & Htm2).
    + inversion Hrun; subst. rewrite Htr, app_assoc in Htr2.
      eexists (_ ++ added1), []. rewrite app_nil_r.
      repeat split; [exact Htr2| |congruence|auto].
      apply Forall_app; split; auto.
      apply Forall_rev, Forall_map, Forall_forall. reflexivity.
    + apply delete_then_reschedule in Hrun.
      destruct Hrun as [(_ & Htr3 & Htm3)|(e1 & _ & Htr3 & Htm3 & _)];
        rewrite Htr2, Htr, app_assoc in Htr3;
        rewrite Htm2, Htm in Htm3.
      * eexists (_ :: _ :: _ ++ added1), [_].
        repeat split; [exact Htr3| |exact Htm3|auto].
        repeat constructor. apply Forall_app; split; auto.
        apply Forall_rev, Forall_map, Forall_forall. reflexivity.
      * eexists (_ :: _ ++ added1), []. rewrite app_nil_r.
        repeat split; [exact Htr3| |exact Htm3|auto].
        repeat constructor. apply Forall_app; split; auto.
        apply Forall_rev, Forall_map, Forall_forall. reflexivity.
Qed.

(** The selector's loop over a batch of users: it registers no timer
    and records only article lookups and inserts into the queue. *)
Lemma queue_loop_frame :
  forall recUsers (w w' : World S) r,
    for_of recUsers queue_user tt w = (r, w') ->
    timers w' = timers w /\
    exists added,
      trace w' = added ++ trace w /\
      Forall (fun ev => is_selector_event ev = true) added.
Proof.
  induction recUsers as [|recUser recUsers IH]; intros w w' r Hrun.
  - cbn in Hrun. inversion Hrun; subst. split; auto. exists []; auto.
  - cbn [for_of] in Hrun. unfold bind at 1 in Hrun.
    destruct (queue_user recUser tt w) as [r1 w1] eqn:Huser.
    assert (Hone : timers w1 = timers w /\
              exists added, trace w1 = added ++ trace w /\
                Forall (fun ev => is_selector_event ev = true) added).
    { unfold queue_user, getNextBreakingNewsForUser, database_get_record,
        database_insert, bind, log, read, write, ret in Huser.
      cbn in Huser.
      destruct (get_record Article_collection _ _ (db w)) as [e|[a|]];
        cbn in Huser.
      - inversion Huser; subst. split; auto. exists [Get "Article" 0]; auto.
      - destruct (insert QUEUE_COLLECTION _ (db w));
          inversion Huser; subst; (split; [reflexivity|]);
          eexists [_; _]; (split; [reflexivity|]); repeat constructor.
      - inversion Huser; subst. split; auto. exists [Get "Article" 0]; auto. }
    destruct Hone as (Htm1 & added1 & Htr1 & Hall1).
    destruct r1 as [e|[]].
    + inversion Hrun; subst. split; auto. exists added1; auto.
    + destruct (IH _ _ _ Hrun) as (Htm2 & added2 & Htr2 & Hall2).
      split; [congruence|]. exists (added2 ++ added1).
      rewrite Htr2, Htr1, app_assoc. split; auto.
      apply Forall_app; auto.
Qed.

(** One call of the selector records the read of its batch of users
    first, then lookups and queue inserts only, and registers at most
    one timer. *)
Lemma selector_events from (w w' : World S) r :
  queueBreakingNewsItems from w = (r, w') ->
  exists rest ts,
    trace w' = rest ++ Get "User" (default_to 0 from) :: trace w /\
    Forall (fun ev => is_batch_read ev = false) rest /\
    Forall (fun ev => is_write ev = true ->
                      is_selector_event ev = true) rest /\
    timers w' = timers w ++ ts /\ List.length ts <= 1.
Proof.
  unfold queueBreakingNewsItems, getBatchOfUsers, database_get.
  unfold bind at 1 2 3. unfold log at 1. unfold read at 1.
  cbn [db default_to skip].
  intros Hrun.
  destruct (get User_collection _ _ (db w)) as [e0|answer].
  { inversion Hrun; subst. exists [], []. cbn. rewrite app_nil_r. repeat split; auto. }
  unfold ret at 1 in Hrun.
  destruct (or_empty answer) as [|recUser recUsers].
  { inversion Hrun; subst. exists [], []. cbn. rewrite app_nil_r. repeat split; auto. }
  cbn [no_length] in Hrun. unfold bind at 1 in Hrun.
  destruct (for_of (recUser :: recUsers) queue_user tt _)
    as [[e0|[]] w1] eqn:Hloop;
    apply queue_loop_frame in Hloop;
    destruct Hloop as (Htm & added & Htr & Hall); cbn [trace timers] in *;
    assert (Hreads : Forall (fun ev => is_batch_read ev = false) added)
      by (eapply Forall_impl; [|exact Hall];
          intros [] Hs; cbn in *; try congruence;
          rewrite Hs; reflexivity);
    assert (Hwrites : Forall (fun ev => is_write ev = true ->
                                is_selector_event ev = true) added)
      by (eapply Forall_impl; [|exact Hall]; auto).
  - inversion Hrun; subst. exists added, []. rewrite app_nil_r. repeat split; auto.
  - unfold setTimeout in Hrun. inversion Hrun; subst. cbn [trace timers].
    eexists (_ :: added), [_]. rewrite Htr, Htm.
    split; [reflexivity|]. split; [constructor; auto|].
    split; [constructor; auto; discriminate|]. split; auto.
Qed.

Lemma filter_none {A} (f : A -> bool) (l : list A) :
  Forall (fun x => f x = false) l -> filter f l = [].
Proof.
  induction 1 as [|x l Hx _ IH]; cbn; [reflexivity|].
  rewrite Hx. exact IH.
Qed.

(** Called with a number where the messaging class should be, the
    dispatcher reads its batch and does nothing else: the first
    [.outgoing] throws before any send or write. *)
Lemma number_is_no_MessageObject n sendMessage skip (w w' : World S) r :
  sendQueuedItems url (number_value n) sendMessage skip w = (r, w') ->
  db w' = db w /\ timers w' = timers w /\
  trace w' = Get "BreakingNewsQueuedItem" (default_to 0 skip) :: trace w.
Proof.
  rewrite sendQueuedItems_unfold.
  destruct (get QUEUE_COLLECTION _ _ (db w)) as [e0|answer].
  { intros H; inversion H; subst; auto. }
  destruct (or_empty answer) as [|item page].
  { intros H; inversion H; subst; auto. }
  cbn. intros H; inversion H; subst; auto.
Qed.

(** Over a channel that never throws, the loop gets through any
    page. *)
Lemma send_loop_reliable send :
  (forall tr u m, send tr u m = None) ->
  forall items acc (w : World S),
    exists acc' w',
      for_of items (send_item url MessageObject (Some send)) acc w
        = (inr acc', w').
Proof.
  intros Hsend. induction items as [|item items IH]; intros acc w.
  - cbn. unfold ret. eauto.
  - cbn [for_of]. unfold bind at 1.
    unfold send_item at 1, bind, constructBreakingNewMessages, ret,
      call_sendMessage, log.
    cbn. rewrite !Hsend. apply IH.
Qed.

End PipelineFacts.

(* ================================================================== *)
(** ** Facts about the in-memory store *)

Section Sorting.

Context {A : Type} (leb : A -> A -> bool).

Lemma insert_sorted_perm x l : Permutation (insert_sorted leb x l) (x :: l).
Proof.
  induction l as [|y l IH]; cbn; [reflexivity|].
  destruct (leb x y); [reflexivity|].
  rewrite IH. apply perm_swap.
Qed.

Lemma sort_by_perm l : Permutation (sort_by leb l) l.
Proof.
  induction l as [|x l IH]; cbn; [reflexivity|].
  rewrite insert_sorted_perm. now constructor.
Qed.

Lemma sort_by_in x l : In x (sort_by leb l) <-> In x l.
Proof.
  split; apply Permutation_in;
    [apply sort_by_perm | symmetry; apply sort_by_perm].
Qed.

Hypothesis leb_total : forall a b, leb a b = true \/ leb b a = true.
Hypothesis leb_trans :
  forall a b c, leb a b = true -> leb b c = true -> leb a c = true.

(** The first element of the sorted list is not after any other. *)
Lemma sort_by_head_least l a rest :
  sort_by leb l = a :: rest ->
  forall x, In x l -> leb a x = true.
Proof.
  revert a rest. induction l as [|y l IH]; intros a rest Hsort x Hin.
  - destruct Hin.
  - change (sort_by leb (y :: l))
      with (insert_sorted leb y (sort_by leb l)) in Hsort.
    destruct (sort_by leb l) as [|b tail] eqn:Hl.
    + cbn in Hsort. inversion Hsort; subst.
      destruct Hin as [->|Hin].
      * destruct (leb_total x x); assumption.
      * apply sort_by_in in Hin. rewrite Hl in Hin. destruct Hin.
    + cbn in Hsort. destruct (leb y b) eqn:Hyb; inversion Hsort; subst.
      * destruct Hin as [->|Hin].
        -- destruct (leb_total x x); assumption.
        -- eapply leb_trans; [exact Hyb|]. eapply IH; eauto.
      * destruct Hin as [->|Hin].
        -- destruct (leb_total a x) as [H|H]; congruence.
        -- eapply IH; eauto.
Qed.

End Sorting.

Section InMemoryFacts.

Variable url : string.

Lemma nin_one id received :
  nin [id] received = true <-> ~ In id received.
Proof.
  unfold nin. rewrite negb_true_iff. split.
  - intros Hnone Hin.
    assert (existsb (fun x => existsb (String.eqb x) [id]) received = true)
      as Hsome; [|congruence].
    apply existsb_exists. exists id. split; auto.
    cbn. rewrite String.eqb_refl. reflexivity.
  - intros Hnot. apply not_true_is_false. intros Hsome.
    apply existsb_exists in Hsome. destruct Hsome as (x & Hin & Hx).
    cbn in Hx. rewrite orb_false_r in Hx. apply String.eqb_eq in Hx.
    subst. auto.
Qed.

(** The query of [getNextBreakingNewsForUser] says what the design
    document says. *)
Lemma article_conditions_eligible u a :
  article_conditions u a = true <-> eligible u a.
Proof.
  unfold article_conditions, eligible, gt, ne, equals.
  rewrite !andb_true_iff, nin_one, Z.ltb_lt.
  destruct (isPublished a) as [[]|], (isPriority a) as [[]|]; cbn;
    intuition congruence.
Qed.

Lemma asc_date_total {A} (key : A -> Date) a b :
  asc_date key a b = true \/ asc_date key b a = true.
Proof. unfold asc_date. rewrite !Z.leb_le. lia. Qed.

Lemma asc_date_trans {A} (key : A -> Date) a b c :
  asc_date key a b = true -> asc_date key b c = true ->
  asc_date key a c = true.
Proof. unfold asc_date. rewrite !Z.leb_le. lia. Qed.

(** The article lookup over the in-memory store. *)
Lemma getNextBreakingNewsForUser_mem recUser (w : World Mem) :
  getNextBreakingNewsForUser recUser w =
    (inr (hd_error (sort_by (asc_date articleDate)
                      (filter (article_conditions recUser)
                         (articles (db w))))),
     {| db := db w; trace := Get "Article" 0 :: trace w;
        timers := timers w |}).
Proof. reflexivity. Qed.

(** C4. For a user the selector processes, the article looked up is
    one of the stored articles that the user has not received, that was
    published strictly after the user's profile was created, that is
    not explicitly unpublished and that is a priority article, and no
    other such article has an earlier publish date; when there is no
    such article the lookup answers nothing.  The loop body then
    inserts exactly one obligation, for that user and that article, or
    none when nothing was found.  In particular no article published
    at or before the profile's creation is ever chosen. *)
Theorem next_breaking_news_is_earliest_eligible
    (recUser : User) (w : World Mem) :
  exists choice,
    getNextBreakingNewsForUser recUser w =
      (inr choice,
       {| db := db w; trace := Get "Article" 0 :: trace w;
          timers := timers w |}) /\
    match choice with
    | Some a =>
        In a (articles (db w)) /\ eligible recUser a /\
        (created (profile recUser) < articleDate a)%Z /\
        forall a', In a' (articles (db w)) -> eligible recUser a' ->
                   (articleDate a <= articleDate a')%Z
    | None =>
        forall a', In a' (articles (db w)) -> ~ eligible recUser a'
    end /\
    fst (queue_user recUser tt w) = inr tt /\
    queue (db (snd (queue_user recUser tt w))) =
      queue (db w) ++
      match choice with
      | Some a =>
          [ {| queue_id := fresh_id (clock (db w));
               queue_data := {| userData := recUser; articleData := a |};
               addedDate := Z.of_nat (clock (db w)) |} ]
      | None => []
      end.
Proof.
  rewrite getNextBreakingNewsForUser_mem.
  eexists; split; [reflexivity|].
  unfold queue_user, bind. rewrite getNextBreakingNewsForUser_mem.
  set (matching := filter (article_conditions recUser) (articles (db w))).
  destruct (sort_by (asc_date articleDate) matching) as [|a rest] eqn:Hsort;
    cbn [hd_error].
  - split; [|split; [reflexivity|cbn; rewrite app_nil_r; reflexivity]].
    intros a' Hin Hel.
    assert (In a' (sort_by (asc_date articleDate) matching)) as Habs.
    { apply sort_by_in. apply filter_In. split; auto.
      apply article_conditions_eligible; auto. }
    rewrite Hsort in Habs. destruct Habs.
  - assert (In a matching) as Hin.
    { apply (sort_by_in (asc_date articleDate)). rewrite Hsort. now left. }
    apply filter_In in Hin. destruct Hin as (Hin & Hcond).
    apply article_conditions_eligible in Hcond.
    split; [|split; reflexivity].
    repeat split; auto; try apply Hcond.
    intros a' Hin' Hel'.
    apply Z.leb_le.
    apply (sort_by_head_least (asc_date articleDate)
             (asc_date_total articleDate) (asc_date_trans articleDate)
             _ Hsort).
    apply filter_In. split; auto. apply article_conditions_eligible; auto.
Qed.

Lemma addToSet_idempotent x l : addToSet x (addToSet x l) = addToSet x l.
Proof.
  unfold addToSet. destruct (existsb (String.eqb x) l) eqn:Hx.
  - rewrite Hx. reflexivity.
  - rewrite existsb_app. cbn.
    rewrite String.eqb_refl, orb_true_r. reflexivity.
Qed.

Lemma addToSet_keeps x l : incl l (addToSet x l).
Proof.
  unfold addToSet. destruct (existsb (String.eqb x) l).
  - apply incl_refl.
  - apply incl_appl, incl_refl.
Qed.

(** C7. Running the dispatcher's received-set update for a queued
    (user, article) pair a second time leaves the store exactly as the
    first run left it.  The update never throws, leaves the users and
    the queue alone, and changes no article other than by growing its
    received-set: every other field of every article is as before and
    no identifier is removed from any received-set. *)
Theorem received_marking_is_idempotent (d : QueueData) (w : World Mem) :
  let w1 := snd (mark_as_received d w) in
  let w2 := snd (mark_as_received d w1) in
  fst (mark_as_received d w) = inr tt /\
  db w2 = db w1 /\
  users (db w1) = users (db w) /\
  queue (db w1) = queue (db w) /\
  Forall2 (fun a a' =>
             forget_received a' = forget_received a /\
             incl (_receivedByUsers a) (_receivedByUsers a'))
    (articles (db w)) (articles (db w1)).
Proof.
  cbn. repeat split.
  - f_equal. rewrite map_map. apply map_ext. intros a.
    destruct (String.eqb (article_id a) (article_id (articleData d)))
      eqn:Ha; cbn; rewrite Ha; [|reflexivity].
    rewrite addToSet_idempotent. reflexivity.
  - induction (articles (db w)) as [|a l IH]; cbn; constructor; auto.
    destruct (String.eqb (article_id a) (article_id (articleData d))).
    + split; [reflexivity|apply addToSet_keeps].
    + split; [reflexivity|apply incl_refl].
Qed.

(** The selector's loop over the in-memory store: it gets through and
    leaves users and articles as they were. *)
Lemma queue_loop_mem :
  forall recUsers (w : World Mem),
    exists w',
      for_of recUsers queue_user tt w = (inr tt, w') /\
      users (db w') = users (db w) /\
      articles (db w') = articles (db w).
Proof.
  induction recUsers as [|recUser recUsers IH]; intros w.
  - cbn. unfold ret. eauto.
  - cbn [for_of]. unfold bind at 1.
    assert (exists w1, queue_user recUser tt w = (inr tt, w1) /\
              users (db w1) = users (db w) /\
              articles (db w1) = articles (db w)) as (w1 & Hq & Hu & Ha).
    { unfold queue_user, bind. rewrite getNextBreakingNewsForUser_mem.
      destruct (hd_error _); cbn; eexists; repeat split. }
    rewrite Hq. destruct (IH w1) as (w' & Hrun & Hu' & Ha').
    exists w'. repeat split; congruence.
Qed.

(** C8. A pass of the selector, from its call to the last timer it
    leaves behind: the call returns normally, one round of the timer
    queue leaves no timer pending, and at the end the User and the
    Article collections are what they were; every write the pass
    recorded is an insert into the queue collection. *)
Theorem selector_pass_writes_only_the_queue (from : option nat) (s : Mem) :
  exists w1 wf,
    queueBreakingNewsItems from (boot s) = (inr tt, w1) /\
    run_timers url 1 w1 = Some wf /\
    timers wf = [] /\
    users (db wf) = users s /\
    articles (db wf) = articles s /\
    Forall (fun ev => is_write ev = true -> is_selector_event ev = true)
      (history wf).
Proof.
  destruct (queueBreakingNewsItems from (boot s)) as [r w1] eqn:Hpass.
  pose proof (selector_events _ _ Hpass)
    as (rest & ts & Htr & _ & Hwrites & _ & _).
  assert (Hrev : Forall (fun ev => is_write ev = true ->
                           is_selector_event ev = true) (trace w1)).
  { rewrite Htr. apply Forall_app; split; [exact Hwrites|].
    constructor; [discriminate|constructor]. }
  clear Htr Hwrites.
  unfold queueBreakingNewsItems, getBatchOfUsers, database_get in Hpass.
  unfold bind at 1 2 3 in Hpass. unfold log at 1, read at 1 in Hpass.
  cbn [get MemDatabase mem_get db boot or_empty] in Hpass.
  unfold ret at 1 in Hpass.
  destruct (mem_find User_collection _ _ _) as [|recUser recUsers].
  - cbn in Hpass. inversion Hpass; subst. cbn.
    eexists _, _. repeat split; try reflexivity.
    unfold history. apply Forall_rev. exact Hrev.
  - cbn [no_length] in Hpass. unfold bind at 1 in Hpass.
    match type of Hpass with
    | context [for_of _ _ _ ?w0] =>
        destruct (queue_loop_mem (recUser :: recUsers) w0)
          as (w2 & Hloop & Hu & Ha)
    end.
    rewrite Hloop in Hpass. cbn [db] in Hu, Ha.
    unfold setTimeout in Hpass. inversion Hpass; subst; clear Hpass.
    assert (Htm : timers w2 = []).
    { apply queue_loop_frame in Hloop. destruct Hloop as (Htm & _).
      exact Htm. }
    cbn [trace] in Hrev.
    match goal with
    | |- exists w0 wf, (_, ?W1) = _ /\ _ =>
        assert (Hrun : exists wf,
                  run_timers url 1 W1 = Some wf /\ timers wf = [] /\
                  db wf = db w2 /\
                  Forall (fun ev => is_write ev = true ->
                                    is_selector_event ev = true) (trace wf))
    end.
    { cbn [run_timers timers]. rewrite Htm. cbn [app].
      unfold fire_next, fire.
      cbn [bound_MessageObject bound_sendMessage bound_skip db trace].
      match goal with
      | |- context [sendQueuedItems url ?mo ?sm ?sk ?w0] =>
          destruct (sendQueuedItems url mo sm sk w0) as [r' w3] eqn:Hfire
      end.
      apply number_is_no_MessageObject in Hfire.
      destruct Hfire as (Hd & Ht & Htr3). cbn [db trace timers] in *.
      destruct r' as [e|[]]; cbn [timers]; rewrite Ht;
        eexists; (split; [reflexivity|]); cbn [db timers trace];
        (split; [auto|]); (split; [exact Hd|]); rewrite Htr3;
        repeat first [exact Hrev | constructor; [discriminate|]]. }
    destruct Hrun as (wf & Hrun & Hnone & Hd & Hwr).
    eexists _, wf. split; [reflexivity|].
    split; [exact Hrun|]. split; [exact Hnone|]. rewrite Hd.
    split; [exact Hu|]. split; [exact Ha|].
    unfold history. apply Forall_rev. exact Hwr.
Qed.

(** The received-set updates never throw on the in-memory store. *)
Lemma Promise_all_mem :
  forall data (w : World Mem),
    exists w', Promise_all (map mark_as_received data) w = (inr tt, w').
Proof.
  induction data as [|d data IH]; intros w.
  - cbn. eauto.
  - cbn [map Promise_all].
    destruct (mark_as_received d w) as [r1 w1] eqn:H1.
    assert (r1 = inr tt) as -> by (cbn in H1; congruence).
    destruct (IH w1) as (w' & Hrest). rewrite Hrest. eauto.
Qed.

(** Over a channel that never throws, a call of the dispatcher on the
    in-memory store returns normally. *)
Lemma dispatcher_mem_reliable send from (w : World Mem) :
  (forall tr u m, send tr u m = None) ->
  exists w',
    sendQueuedItems url MessageObject (Some send) from w = (inr tt, w').
Proof.
  intros Hsend. rewrite sendQueuedItems_unfold.
  cbn [get MemDatabase mem_get or_empty].
  destruct (mem_find QUEUE_COLLECTION _ _ _) as [|item page]; [eauto|].
  match goal with
  | |- context [for_of ?items _ ?acc ?w0] =>
      destruct (send_loop_reliable url send Hsend items acc w0)
        as (expended & w1 & Hloop)
  end.
  rewrite Hloop.
  destruct (Promise_all_mem (snd expended) w1) as (w2 & Hmarks).
  rewrite Hmarks. cbn. unfold setTimeout. eauto.
Qed.

(** The two batch reads over the in-memory store. *)
Lemma getBatchOfUsers_mem from (w : World Mem) :
  getBatchOfUsers from w =
    (inr (mem_find User_collection user_conditions
            (user_options (default_to 0 from)) (db w)),
     {| db := db w; trace := Get "User" (default_to 0 from) :: trace w;
        timers := timers w |}).
Proof. reflexivity. Qed.

Lemma getBatchOfQueuedItems_mem from (w : World Mem) :
  getBatchOfQueuedItems from w =
    (inr (mem_find QUEUE_COLLECTION (fun _ => true)
            (queue_options (default_to 0 from)) (db w)),
     {| db := db w;
        trace := Get "BreakingNewsQueuedItem" (default_to 0 from)
                 :: trace w;
        timers := timers w |}).
Proof. reflexivity. Qed.

Lemma paginate_incl {A} skip limit (l : list A) x :
  In x (paginate skip limit l) -> In x l.
Proof.
  unfold paginate. intros Hin.
  assert (In x (skipn (default_to 0 skip) l)) as Hs.
  { destruct limit as [n|]; auto.
    rewrite <- (firstn_skipn n (skipn _ l)). apply in_or_app. now left. }
  rewrite <- (firstn_skipn (default_to 0 skip) l). apply in_or_app.
  now right.
Qed.

(** C10. The dispatcher's batch is a page of the whole queue: nothing
    is filtered out, whatever the [disabled] flag of the queued user
    says and whatever the User collection says by now.  So over a
    channel that never throws every item of the page has its alert and
    its card delivered.  It is the selector's batch of users that
    leaves out the users whose flag is [true]. *)
Theorem dispatch_ignores_the_disabled_flag
    send from (s : Mem) (item : QueueItem) :
  (forall tr u m, send tr u m = None) ->
  In item (paginate (Some (default_to 0 from)) (Some BATCH_SIZE)
             (sort_by (asc_date addedDate) (queue s))) ->
  let u := userData (queue_data item) in
  let a := articleData (queue_data item) in
  exists w',
    sendQueuedItems url MessageObject (Some send) from (boot s)
      = (inr tt, w') /\
    In (Send u (outgoing u alert_content) None) (history w') /\
    In (Send u (outgoing u (carousel_for url u a)) None) (history w') /\
    forall from' selected w1,
      getBatchOfUsers from' (boot s) = (inr selected, w1) ->
      Forall (fun v => disabled (bot v) <> Some true) selected.
Proof.
  intros Hsend Hitem u a.
  destruct (dispatcher_mem_reliable send from (boot s) Hsend)
    as (w' & Hrun).
  exists w'. split; [exact Hrun|].
  assert (Hpage : mem_find QUEUE_COLLECTION (fun _ => true)
                    (queue_options (default_to 0 from)) s
                  = paginate (Some (default_to 0 from)) (Some BATCH_SIZE)
                      (sort_by (asc_date addedDate) (queue s))).
  { unfold mem_find, queue_options. cbn [skip limit sort mem_docs].
    f_equal. f_equal. clear. induction (queue s) as [|q l IH]; cbn; congruence. }
  assert (Htrace := @dispatched_page_trace url _ _ (Some send) from
                      (boot s) w'
                      (mem_find QUEUE_COLLECTION (fun _ => true)
                         (queue_options (default_to 0 from)) s)
                      eq_refl).
  rewrite Hpage in Htrace.
  specialize (Htrace
                ltac:(intros Hnil; rewrite Hnil in Hitem; destruct Hitem)
                Hrun).
  assert (Hsends : forall ev, In ev (sends_of url item) ->
                              In ev (history w')).
  { intros ev Hev. unfold history. apply in_rev. rewrite rev_involutive.
    rewrite Htrace. right. right. apply in_or_app. right.
    apply in_or_app. left. apply in_rev. rewrite rev_involutive.
    apply in_flat_map. exists item. auto. }
  split; [|split].
  - apply Hsends. left. reflexivity.
  - apply Hsends. right. left. reflexivity.
  - intros from' selected w1 Hsel.
    rewrite getBatchOfUsers_mem in Hsel.
    inversion Hsel; subst; clear Hsel.
    apply Forall_forall. intros v Hv. unfold mem_find in Hv.
    apply paginate_incl in Hv. apply sort_by_in in Hv.
    apply filter_In in Hv. destruct Hv as (_ & Hcond).
    unfold user_conditions, ne in Hcond.
    destruct (disabled (bot v)) as [[]|]; cbn in Hcond; congruence.
Qed.

End InMemoryFacts.

(* ================================================================== *)
(** ** Runs on sample stores *)

(** C1. A store with 1001 users, none disabled and each owed the same
    priority article.  A pass of the selector reads one batch of users
    and then, from its timer, one batch of the queue, where the callback
    throws; it ends with 1000 obligations queued and none for the last
    user: the users beyond the first batch are never visited. *)
Theorem users_beyond_the_first_batch_are_never_visited :
  let s := users_store 1001 in
  forallb (fun u => user_conditions u
                    && article_conditions u (sample_article "a1" 101%Z))
    (users s) = true /\
  option_map
    (fun wf => (List.length (queue (db wf)),
                existsb (String.eqb (user_id (sample_user 1000)))
                  (queued_for (db wf)),
                filter is_batch_read (history wf),
                hd_error (trace wf)))
    (selector_pass sample_url s)
  = Some (1000, false,
          [Get "User" 0; Get "BreakingNewsQueuedItem" 0],
          Some (UnhandledRejection
                  (TypeError "MessageObject.outgoing is not a function"))).
Proof. split; vm_compute; reflexivity. Qed.

(** C2. A queue of 1001 obligations and a channel that never throws.
    The drain run sends and deletes the first 1000, then reads the batch
    from 1000 of what is left, finds it empty and stops: the last
    obligation is still queued and nothing was sent to its user. *)
Theorem drain_run_leaves_an_obligation_behind :
  option_map
    (fun wf => (map queue_id (queue (db wf)),
                existsb (is_send_to (user_id (sample_user 1000)))
                  (history wf),
                filter is_batch_read (history wf),
                List.length (timers wf)))
    (drain_run sample_url reliable (queued_store 1001))
  = Some ([fresh_id 1000], false,
          [Get "BreakingNewsQueuedItem" 0; Get "BreakingNewsQueuedItem" 1000],
          0).
Proof. vm_compute; reflexivity. Qed.


(** The page-order theorem on two queued obligations. *)
Lemma page_sends_then_marks_then_deletes_witness :
  let w := boot (queued_store 2) in
  let w' := snd (sendQueuedItems sample_url MessageObject (Some reliable)
                   None w) in
  history w' =
    history w
    ++ [Get "BreakingNewsQueuedItem" 0]
    ++ flat_map (sends_of sample_url) (queue (queued_store 2))
    ++ map update_of (queue (queued_store 2))
    ++ [DeleteWhere "BreakingNewsQueuedItem"
          (map queue_id (queue (queued_store 2)));
        SetTimeout BATCH_DELAY_MS].
Proof.
  intros w w'.
  apply (@page_sends_then_marks_then_deletes sample_url Mem MemDatabase
           (Some reliable) None w w' (queue (queued_store 2))).
  - vm_compute. reflexivity.
  - discriminate.
  - vm_compute. reflexivity.
Defined.

(** The design document's scenario: a page of three, and the channel
    throws on the second item. *)
Lemma failed_send_leaves_page_queued_witness :
  let w := boot (queued_store 3) in
  let run := sendQueuedItems sample_url MessageObject
               (Some (fails_for (user_id (sample_user 1)))) None w in
  fst run = inl (Failure "channel error") /\
  db (snd run) = db w /\
  timers (snd run) = timers w /\
  Forall (fun ev => is_write ev = false) (trace (snd run)).
Proof.
  intros w run.
  apply (@failed_send_leaves_page_queued sample_url Mem MemDatabase
           MessageObject (Some (fails_for (user_id (sample_user 1)))) None
           w (snd run) (fst run) (trace (snd run)) (sample_user 1)
           (outgoing (sample_user 1) alert_content)
           (Failure "channel error")).
  - vm_compute. reflexivity.
  - vm_compute. reflexivity.
  - vm_compute. left. reflexivity.
Defined.

(** A store that answers every read with nothing. *)
Lemma absent_batch_ends_the_loop_witness :
  let w := boot tt in
  getBatchOfQueuedItems (Some 0) w
    = (inr [], {| db := tt; trace := [Get "BreakingNewsQueuedItem" 0];
                  timers := [] |}) /\
  getBatchOfUsers (Some 0) w
    = (inr [], {| db := tt; trace := [Get "User" 0]; timers := [] |}) /\
  sendQueuedItems sample_url MessageObject (Some reliable) (Some 0) w
    = (inr tt, {| db := tt; trace := [Get "BreakingNewsQueuedItem" 0];
                  timers := [] |}) /\
  queueBreakingNewsItems (Some 0) w
    = (inr tt, {| db := tt; trace := [Get "User" 0]; timers := [] |}).
Proof.
  intros w.
  apply (@absent_batch_ends_the_loop sample_url unit AbsentDatabase
           MessageObject (Some reliable) 0 w); reflexivity.
Defined.

(** An obligation queued for a user who is disabled by now is sent all
    the same. *)
Lemma dispatch_ignores_the_disabled_flag_witness :
  disabled (bot (userData (queue_data disabled_item))) = Some true /\
  exists w',
    sendQueuedItems sample_url MessageObject (Some reliable) None
      (boot disabled_store) = (inr tt, w') /\
    In (Send disabled_user (outgoing disabled_user alert_content) None)
      (history w') /\
    In (Send disabled_user
          (outgoing disabled_user
             (carousel_for sample_url disabled_user
                (sample_article "a1" 101%Z))) None) (history w') /\
    forall from' selected w1,
      getBatchOfUsers from' (boot disabled_store) = (inr selected, w1) ->
      Forall (fun v => disabled (bot v) <> Some true) selected.
Proof.
  split; [reflexivity|].
  apply (@dispatch_ignores_the_disabled_flag sample_url reliable None
           disabled_store disabled_item).
  - reflexivity.
  - vm_compute. left. reflexivity.
Defined.

(* ================================================================== *)
(** ** How the batches chain, over every store *)

Section BatchChain.

Variable url : string.
Context {S : Type} {database : Database S}.

(** X1. A call of the dispatcher registers the next batch in exactly one
    case: it read a batch that has items and got through it (all sends,
    all updates and the delete).  The callback is then the dispatcher
    again, with the same messaging class and send capability, starting
    [BATCH_SIZE] further.  When the read fails or finds nothing, or a
    send, an update or the delete throws, no timer is registered and the
    chain ends there. *)
Theorem next_batch_is_registered_only_after_a_delivered_batch
    MessageObject sendMessage from (w : World S) :
  let '(r, w') := sendQueuedItems url MessageObject sendMessage from w in
  timers w' =
    timers w ++
    match r, get QUEUE_COLLECTION (fun _ => true)
               (queue_options (default_to 0 from)) (db w) with
    | inr _, inr answer =>
        if no_length (or_empty answer) then []
        else [ {| bound_MessageObject := MessageObject;
                  bound_sendMessage := sendMessage;
                  bound_skip := Some (default_to 0 from + BATCH_SIZE) |} ]
    | _, _ => []
    end.
Proof.
  destruct (sendQueuedItems url MessageObject sendMessage from w)
    as [r w'] eqn:Hrun.
  rewrite sendQueuedItems_unfold in Hrun.
  destruct (get QUEUE_COLLECTION _ _ (db w)) as [e0|answer].
  { inversion Hrun; subst. cbn. now rewrite app_nil_r. }
  destruct (or_empty answer) as [|item page].
  { inversion Hrun; subst. cbn. now rewrite app_nil_r. }
  cbn [no_length].
  destruct (for_of (item :: page) _ _ _) as [[e0|expended] w1] eqn:Hloop;
    apply send_loop_frame in Hloop; destruct Hloop as (_ & Htm & _);
    cbn [timers] in Htm.
  { inversion Hrun; subst. rewrite Htm. now rewrite app_nil_r. }
  destruct (Promise_all _ w1) as [[e1|?] w2] eqn:Hmarks;
    apply Promise_all_marks in Hmarks; destruct Hmarks as (_ & Htm2).
  { inversion Hrun; subst. rewrite Htm2, Htm. now rewrite app_nil_r. }
  apply delete_then_reschedule in Hrun.
  destruct Hrun as [(-> & _ & Htm3)|(e1 & -> & _ & Htm3 & _)];
    rewrite Htm3, Htm2, Htm; [reflexivity|now rewrite app_nil_r].
Qed.

(** X2. A call of the selector registers a callback exactly when it read
    a batch of users that has entries and got through it.  The callback
    is not the selector: it is the dispatcher, bound to the count of
    users done where the messaging class belongs and to no send
    capability and no offset.  When the read fails or finds nothing, or
    a lookup or an insert throws, nothing is registered. *)
Theorem selector_registers_a_dispatcher_callback from (w : World S) :
  let '(r, w') := queueBreakingNewsItems from w in
  timers w' =
    timers w ++
    match r, get User_collection user_conditions
               (user_options (default_to 0 from)) (db w) with
    | inr _, inr answer =>
        if no_length (or_empty answer) then []
        else [ selector_callback (default_to 0 from) ]
    | _, _ => []
    end.
Proof.
  destruct (queueBreakingNewsItems from w) as [r w'] eqn:Hrun.
  unfold queueBreakingNewsItems, getBatchOfUsers, database_get in Hrun.
  unfold bind at 1 2 3 in Hrun. unfold log at 1, read at 1 in Hrun.
  unfold user_options. cbn [db default_to] in Hrun.
  destruct (get User_collection _ _ (db w)) as [e0|answer].
  { inversion Hrun; subst. cbn. now rewrite app_nil_r. }
  unfold ret at 1 in Hrun.
  destruct (or_empty answer) as [|recUser recUsers].
  { inversion Hrun; subst. cbn. now rewrite app_nil_r. }
  cbn [no_length] in *. unfold bind at 1 in Hrun.
  destruct (for_of (recUser :: recUsers) queue_user tt _)
    as [[e0|[]] w1] eqn:Hloop;
    apply queue_loop_frame in Hloop; destruct Hloop as (Htm & _);
    cbn [timers] in Htm.
  { inversion Hrun; subst. rewrite Htm. now rewrite app_nil_r. }
  unfold setTimeout in Hrun. inversion Hrun; subst. cbn [timers].
  rewrite Htm. reflexivity.
Qed.

(** X3. When the selector's callback fires, it reads the first batch of
    the queue and does nothing else, whatever the store holds: no send,
    no write, no further timer.  It returns normally when that batch is
    empty and otherwise rejects with a [TypeError], because the number
    bound in place of the messaging class has no [outgoing]. *)
Theorem selector_callback_only_reads_the_queue skip (w : World S) :
  let '(r, w') := fire url (selector_callback skip) w in
  db w' = db w /\ timers w' = timers w /\
  trace w' = Get "BreakingNewsQueuedItem" 0 :: trace w /\
  r = match get QUEUE_COLLECTION (fun _ => true) (queue_options 0) (db w)
      with
      | inl e => inl e
      | inr answer =>
          if no_length (or_empty answer) then inr tt
          else inl (TypeError "MessageObject.outgoing is not a function")
      end.
Proof.
  unfold fire, selector_callback.
  cbn [bound_MessageObject bound_sendMessage bound_skip].
  rewrite sendQueuedItems_unfold. cbn [default_to].
  destruct (get QUEUE_COLLECTION _ _ (db w)) as [e0|answer]; [now auto|].
  destruct (or_empty answer) as [|item page]; cbn; auto.
Qed.

(** What the dispatcher's loop records as delivered is owed to an item
    of the page. *)
Lemma send_loop_delivers_what_is_owed sendMessage :
  forall items acc (w w' : World S) r added,
    for_of items (send_item url MessageObject sendMessage) acc w = (r, w') ->
    trace w' = added ++ trace w ->
    forall u m, In (Send u m None) added ->
                In (Send u m None) (flat_map (sends_of url) items).
Proof.
  induction items as [|item items IH]; intros acc w w' r added Hrun Hadded.
  - cbn in Hrun. inversion Hrun; subst.
    rewrite <- (app_nil_l (trace w')) in Hadded at 1.
    apply app_inv_tail in Hadded. subst. intros ? ? [].
  - cbn [for_of] in Hrun. unfold bind at 1 in Hrun.
    destruct (send_item url MessageObject sendMessage item acc w)
      as [r1 w1] eqn:Hitem.
    assert (Hone : exists added1, trace w1 = added1 ++ trace w /\
              (forall ev, In ev added1 ->
                 In ev (sends_of url item) \/ exists u m e,
                   ev = Send u m (Some e))).
    { unfold send_item, bind, constructBreakingNewMessages, ret in Hitem.
      cbn in Hitem.
      set (u := userData (queue_data item)) in *.
      set (a := articleData (queue_data item)) in *.
      pose proof (call_sendMessage_cases sendMessage u
                    (outgoing u alert_content) w) as H1.
      destruct (call_sendMessage sendMessage u (outgoing u alert_content) w)
        as [[e1|[]] w2].
      - inversion Hitem; subst.
        destruct H1 as (_ & _ & [[Hr _]|[(e' & Hr & Htr)|(e' & Hr & Htr & _)]]);
          try discriminate.
        + exists [Send u (outgoing u alert_content) (Some e')].
          split; [exact Htr|].
          intros ev [<-|[]]. right. eauto.
        + exists []. split; [exact Htr|]. intros ? [].
      - destruct H1 as (_ & _ & [[_ Htr]|[(e' & Hr & _)|(e' & Hr & _)]]);
          try discriminate.
        pose proof (call_sendMessage_cases sendMessage u
                      (outgoing u (carousel_for url u a)) w2) as H2.
        destruct (call_sendMessage sendMessage u
                    (outgoing u (carousel_for url u a)) w2)
          as [[e2|[]] w3]; cbn in Hitem; inversion Hitem; subst;
          destruct H2 as (_ & _ & [[Hr Htr2]|[(e' & Hr & Htr2)|(e' & Hr & Htr2 & _)]]);
          try discriminate.
        + exists [Send u (outgoing u (carousel_for url u a)) (Some e');
                  Send u (outgoing u alert_content) None].
          rewrite Htr2, Htr. split; [reflexivity|].
          intros ev [<-|[<-|[]]]; [right; eauto|left; now left].
        + exists [Send u (outgoing u alert_content) None].
          rewrite Htr2, Htr. split; [reflexivity|].
          intros ev [<-|[]]. left. now left.
        + exists [Send u (outgoing u (carousel_for url u a)) None;
                  Send u (outgoing u alert_content) None].
          rewrite Htr2, Htr. split; [reflexivity|].
          intros ev [<-|[<-|[]]]; left; [right; now left|now left]. }
    destruct Hone as (added1 & Htr1 & Hown).
    assert (Hfirst : forall u m, In (Send u m None) added1 ->
              In (Send u m None) (flat_map (sends_of url) (item :: items))).
    { intros u m Hin. cbn [flat_map]. apply in_or_app. left.
      destruct (Hown _ Hin) as [Hok|(? & ? & ? & Habs)]; [exact Hok|].
      discriminate. }
    destruct r1 as [e|acc1].
    + inversion Hrun; subst. rewrite Htr1 in Hadded.
      apply app_inv_tail in Hadded. subst. exact Hfirst.
    + pose proof Hrun as Hrest. apply send_loop_frame in Hrest.
      destruct Hrest as (_ & _ & added2 & Htr2 & _).
      rewrite Htr2, Htr1, app_assoc in Hadded.
      apply app_inv_tail in Hadded. subst added.
      intros u m Hin. apply in_app_or in Hin. destruct Hin as [Hin|Hin].
      * cbn [flat_map]. apply in_or_app. right.
        eapply (IH _ _ _ _ _ Hrun Htr2); eauto.
      * now apply Hfirst.
Qed.

End BatchChain.

(* ================================================================== *)
(** ** The orchestrator under the event loop *)

Section TaskFacts.

Variable url : string.
Context {S : Type} {database : Database S}.

(** *** Run with nothing in between, a function is the computation of
    the same name *)

Lemma run_alone_and_then {R R'} (t : Async S R) (k : R -> Async S R') w :
  run_alone (and_then t k) w
  = bind (run_alone t) (fun r => run_alone (k r)) w.
Proof.
  revert w. induction t as [r|e|A op k1 IH]; intros w; cbn; try reflexivity.
  unfold bind. cbn. destruct (op w) as [[e|a] w1]; [reflexivity|].
  rewrite IH. reflexivity.
Qed.

Lemma run_alone_perform {A} (op : M S A) w : run_alone (perform op) w = op w.
Proof. cbn. destruct (op w) as [[e|a] w1]; reflexivity. Qed.

Lemma for_of_ext {A B} (body body' : A -> B -> M S B) :
  (forall x acc w, body x acc w = body' x acc w) ->
  forall xs acc w, for_of xs body acc w = for_of xs body' acc w.
Proof.
  intros Hbody xs. induction xs as [|x xs IH]; intros acc w; cbn;
    [reflexivity|].
  unfold bind. rewrite Hbody.
  destruct (body' x acc w) as [[e|acc1] w1]; [reflexivity|apply IH].
Qed.

Lemma run_alone_for_of {A B} (body : A -> B -> Async S B) xs :
  forall acc w,
    run_alone (for_of_task xs body acc) w
    = for_of xs (fun x acc => run_alone (body x acc)) acc w.
Proof.
  induction xs as [|x xs IH]; intros acc w; cbn [for_of_task for_of];
    [reflexivity|].
  rewrite run_alone_and_then. unfold bind.
  destruct (run_alone (body x acc) w) as [[e|acc1] w1];
    [reflexivity|apply IH].
Qed.

Lemma run_alone_Promise_all (promises : list (M S unit)) :
  forall rejected w,
    run_alone (Promise_all_task promises rejected) w
    = let (r, w1) := Promise_all promises w in
      (match rejected with Some e => inl e | None => r end, w1).
Proof.
  induction promises as [|p rest IH]; intros rejected w.
  - cbn. destruct rejected; reflexivity.
  - cbn [Promise_all_task Promise_all]. rewrite run_alone_and_then.
    unfold bind. rewrite run_alone_perform. unfold settle.
    destruct (p w) as [r w1]. rewrite IH.
    destruct (Promise_all rest w1) as [r' w2].
    destruct rejected, r as [e'|[]]; reflexivity.
Qed.

Lemma run_alone_send_item MessageObject sendMessage item expended w :
  run_alone (send_item_task url MessageObject sendMessage item expended) w
  = @send_item url S MessageObject sendMessage item expended w.
Proof.
  unfold send_item_task, send_item.
  rewrite run_alone_and_then. unfold bind. rewrite run_alone_perform.
  destruct (constructBreakingNewMessages _ _ _ _ w) as [[e|messages] w1];
    [reflexivity|].
  rewrite run_alone_and_then. unfold bind. rewrite run_alone_perform.
  destruct (call_sendMessage _ _ _ w1) as [[e|[]] w2]; [reflexivity|].
  rewrite run_alone_and_then. unfold bind. rewrite run_alone_perform.
  destruct (call_sendMessage _ _ _ w2) as [[e|[]] w3]; reflexivity.
Qed.

Lemma bind_at {A B} (m : M S A) (k : A -> M S B) w :
  bind m k w = match m w with
               | (inl e, w1) => (inl e, w1)
               | (inr a, w1) => k a w1
               end.
Proof. reflexivity. Qed.

Lemma run_alone_sendQueuedItems MessageObject sendMessage skip w :
  run_alone (sendQueuedItems_task url MessageObject sendMessage skip) w
  = sendQueuedItems url MessageObject sendMessage skip w.
Proof.
  unfold sendQueuedItems_task, sendQueuedItems.
  rewrite run_alone_and_then, !bind_at, run_alone_perform.
  destruct (getBatchOfQueuedItems _ w) as [[e|recQueueItems] w1];
    [reflexivity|].
  destruct (no_length recQueueItems); [reflexivity|].
  rewrite run_alone_and_then, !bind_at, run_alone_for_of.
  rewrite (for_of_ext _ (@send_item url S MessageObject sendMessage))
    by (intros; apply run_alone_send_item).
  destruct (for_of _ _ _ w1) as [[e|expended] w2]; [reflexivity|].
  rewrite run_alone_and_then, !bind_at, run_alone_Promise_all.
  destruct (Promise_all _ w2) as [[e|[]] w3]; [reflexivity|].
  rewrite run_alone_and_then, !bind_at, !run_alone_perform.
  destruct (database_deleteWhere _ _ w3) as [[e|[]] w4]; reflexivity.
Qed.

Lemma run_alone_queue_user recUser acc w :
  run_alone (queue_user_task recUser acc) w = queue_user recUser acc w.
Proof.
  unfold queue_user_task, queue_user.
  rewrite run_alone_and_then, !bind_at, run_alone_perform.
  destruct (getNextBreakingNewsForUser _ w) as [[e|[recArticle|]] w1];
    try reflexivity.
  apply run_alone_perform.
Qed.

Lemma run_alone_queueBreakingNewsItems skip w :
  run_alone (queueBreakingNewsItems_task skip) w
  = queueBreakingNewsItems skip w.
Proof.
  unfold queueBreakingNewsItems_task, queueBreakingNewsItems.
  rewrite run_alone_and_then, !bind_at, run_alone_perform.
  destruct (getBatchOfUsers _ w) as [[e|recUsers] w1]; [reflexivity|].
  destruct (no_length recUsers); [reflexivity|].
  rewrite run_alone_and_then, !bind_at, run_alone_for_of.
  rewrite (for_of_ext _ queue_user) by (intros; apply run_alone_queue_user).
  destruct (for_of _ _ _ w1) as [[e|[]] w2]; [reflexivity|].
  apply run_alone_perform.
Qed.

(** With nothing in between, the orchestrator is its three calls, one
    after the other. *)
Lemma run_alone_sendOutstanding MessageObject sendMessage w :
  run_alone (sendOutstanding url MessageObject sendMessage) w
  = (sendQueuedItems url MessageObject sendMessage None ;;
     queueBreakingNewsItems None ;;
     sendQueuedItems url MessageObject sendMessage None) w.
Proof.
  unfold sendOutstanding.
  rewrite run_alone_and_then, !bind_at, run_alone_sendQueuedItems.
  destruct (sendQueuedItems _ _ _ _ w) as [[e|[]] w1]; [reflexivity|].
  rewrite run_alone_and_then, !bind_at, run_alone_queueBreakingNewsItems.
  destruct (queueBreakingNewsItems _ w1) as [[e|[]] w2]; [reflexivity|].
  apply run_alone_sendQueuedItems.
Qed.

(** *** The batch reads of a function *)



















(** *** Under every order of turns *)





(** A function that has thrown or returned takes no further turn. *)
Lemma step_after_the_end (c : turn) (m : Machine S) :
  (forall A (op : M S A) k, caller m <> Await op k) ->
  caller (step url c m) = caller m /\
  done_by_caller (step url c m) = done_by_caller m.
Proof.
  intros Hended. destruct c as [|i|]; cbn [step].
  - destruct (caller m) as [r|e|A op k] eqn:Hcaller; auto.
    now destruct (Hended A op k).
  - destruct (nth_error (callbacks m) i) as [[r|e|A op k]|]; auto.
    destruct (op (world m)) as [[e|a] w1]; auto.
  - destruct (timers (world m)); auto.
Qed.

Lemma run_after_the_end (turns : list turn) :
  forall (m : Machine S),
    (forall A (op : M S A) k, caller m <> Await op k) ->
    caller (run url turns m) = caller m /\
    done_by_caller (run url turns m) = done_by_caller m.
Proof.
  induction turns as [|c turns IH]; intros m Hended; cbn [run]; [auto|].
  destruct (step_after_the_end c m Hended) as [Hc Hd].
  destruct (IH (step url c m)) as [Hc' Hd'].
  - rewrite Hc. exact Hended.
  - split; congruence.
Qed.


(** When only the caller takes turns, it gets to the end of its run
    with nothing in between. *)
Lemma caller_alone (t : Async S unit) :
  forall w cbs done,
  exists n,
    let m := run url (repeat resume_caller n)
               {| world := w; caller := t; callbacks := cbs;
                  done_by_caller := done |} in
    world m = snd (run_alone t w) /\
    caller m = ended (fst (run_alone t w)) /\
    callbacks m = cbs.
Proof.
  induction t as [r|e|A op k IH]; intros w cbs done.
  - exists 0. cbn. auto.
  - exists 0. cbn. auto.
  - destruct (op w) as [[e|a] w1] eqn:Hop.
    + exists 1. cbn. rewrite Hop. cbn. auto.
    + destruct (IH a w1 cbs (since w w1 ++ done)) as (n & Hn).
      exists (Datatypes.S n). cbn [repeat run step caller world].
      rewrite Hop. cbn [run_alone]. rewrite Hop. exact Hn.
Qed.


End TaskFacts.

(* ================================================================== *)
(** ** The caller next to callbacks that only read *)

Section TameFacts.

Variable url : string.
Context {S : Type} {database : Database S}.

Lemma has_ended_not_waiting {R} (t : Async S R) :
  has_ended t = true -> forall A (op : M S A) k, t <> Await op k.
Proof. destruct t; intros Hended A' op' k'; discriminate. Qed.

Lemma same_store_refl (w : World S) : same_store w w.
Proof. split; reflexivity. Qed.

Lemma same_store_trans (w1 w2 w3 : World S) :
  same_store w1 w2 -> same_store w2 w3 -> same_store w1 w3.
Proof. intros [H1 H2] [H3 H4]. split; congruence. Qed.

Lemma same_store_sym (w1 w2 : World S) : same_store w1 w2 -> same_store w2 w1.
Proof. intros [H1 H2]. split; congruence. Qed.

(** The callback the selector registers is a reader. *)
Lemma selector_callback_is_a_reader n sendMessage from :
  reader (fire_task url {| bound_MessageObject := number_value n;
                           bound_sendMessage := sendMessage;
                           bound_skip := from |}).
Proof.
  unfold fire_task, sendQueuedItems_task.
  cbn [and_then perform bound_MessageObject bound_sendMessage bound_skip].
  cbn [reader]. intros w.
  assert (Hw : snd (getBatchOfQueuedItems (Some (default_to 0 from)) w)
               = {| db := db w;
                    trace := Get "BreakingNewsQueuedItem" (default_to 0 from)
                             :: trace w;
                    timers := timers w |}).
  { unfold getBatchOfQueuedItems, database_get, bind, log, read. cbn.
    destruct (get _ _ _ _) as [e|recs]; reflexivity. }
  rewrite Hw. split; [split; reflexivity|]. split; [reflexivity|].
  intros [|item rest] _; cbn; [exact I|].
  intros w2. split; [apply same_store_refl|]. split; [reflexivity|].
  intros a Ha. discriminate.
Qed.

(** *** Operations that cannot tell what readers did *)

Lemma plain_batch_of_queued_items from : plain (getBatchOfQueuedItems from).
Proof.
  unfold getBatchOfQueuedItems, database_get, bind, log, read.
  split; [intros w w' [Hdb Htr]|intros w]; cbn; rewrite ?Hdb;
    destruct (get _ _ _ _) as [e|recs]; cbn; repeat split; auto.
Qed.

Lemma plain_batch_of_users from : plain (getBatchOfUsers from).
Proof.
  unfold getBatchOfUsers, database_get, bind, log, read.
  split; [intros w w' [Hdb Htr]|intros w]; cbn; rewrite ?Hdb;
    destruct (get _ _ _ _) as [e|recs]; cbn; repeat split; auto.
Qed.

Lemma plain_lookup recUser : plain (getNextBreakingNewsForUser recUser).
Proof.
  unfold getNextBreakingNewsForUser, database_get_record, bind, log, read.
  split; [intros w w' [Hdb Htr]|intros w]; cbn; rewrite ?Hdb;
    destruct (get_record _ _ _ _) as [e|a]; cbn; repeat split; auto.
Qed.

Lemma plain_insert d : plain (database_insert QUEUE_COLLECTION d).
Proof.
  unfold database_insert, bind, log, write.
  split; [intros w w' [Hdb Htr]|intros w]; cbn; rewrite ?Hdb;
    destruct (insert _ _ _) as [e|s]; cbn; repeat split; auto.
Qed.

Lemma plain_mark d : plain (settle (mark_as_received d)).
Proof.
  unfold settle, mark_as_received, database_update, bind, log, write.
  split; [intros w w' [Hdb Htr]|intros w]; cbn; rewrite ?Hdb;
    destruct (update _ _ _ _) as [e|s]; cbn; repeat split; auto.
Qed.

Lemma plain_delete ids : plain (database_deleteWhere QUEUE_COLLECTION ids).
Proof.
  unfold database_deleteWhere, bind, log, write.
  split; [intros w w' [Hdb Htr]|intros w]; cbn; rewrite ?Hdb;
    destruct (deleteWhere _ _ _) as [e|s]; cbn; repeat split; auto.
Qed.

Lemma plain_construct recUser recArticle MessageObject :
  plain (@constructBreakingNewMessages url S recUser recArticle
           MessageObject).
Proof.
  split; [intros w w' Hsame|intros w]; destruct MessageObject; cbn; auto.
Qed.

Lemma plain_reliable_send (send : Sender) u m :
  (forall tr u' m', send tr u' m' = None) ->
  plain (@call_sendMessage S (Some send) u m).
Proof.
  intros Hsend.
  split; [intros w w' [Hdb Htr]|intros w]; cbn; rewrite !Hsend; cbn; auto.
  split; [reflexivity|]. split; [exact Hdb|]. cbn. now rewrite Htr.
Qed.

Lemma blind_setTimeout fn ms : blind (@setTimeout S fn ms).
Proof. intros w w' [Hdb Htr]. cbn. repeat split; auto. Qed.

(** *** Tame functions *)

Lemma tame_and_then {R R'} (t : Async S R) (k : R -> Async S R') last :
  tame url false t -> (forall r, tame url last (k r)) ->
  tame url last (and_then t k).
Proof.
  induction t as [r|e|A op k1 IH]; intros Ht Hk; cbn in *; auto.
  destruct Ht as [Hblind Hw]. split; [exact Hblind|]. intros w.
  destruct (Hw w) as [[Hts|[Hlast _]] Hnext]; [|discriminate].
  split; [left; exact Hts|]. intros a Ha. apply IH; auto.
Qed.

Lemma tame_plain {A} (op : M S A) last :
  plain op -> tame url last (perform op).
Proof.
  intros [Hblind Htimers]. cbn. split; [exact Hblind|]. intros w.
  split; [|intros; exact I].
  left. exists []. rewrite app_nil_r. auto.
Qed.

Lemma tame_plain_then {A R} (op : M S A) (k : A -> Async S R) last :
  plain op -> (forall a, tame url last (k a)) ->
  tame url last (and_then (perform op) k).
Proof. intros Hop Hk. apply tame_and_then; [now apply tame_plain|exact Hk]. Qed.

Lemma tame_for_of {A B} (body : A -> B -> Async S B) xs :
  (forall x acc, tame url false (body x acc)) ->
  forall acc, tame url false (for_of_task xs body acc).
Proof.
  intros Hbody. induction xs as [|x xs IH]; intros acc; cbn [for_of_task].
  - exact I.
  - apply tame_and_then; auto.
Qed.

Lemma tame_marks ds :
  forall rejected,
    tame url false
      (Promise_all_task (map (@mark_as_received S _) ds) rejected).
Proof.
  induction ds as [|d ds IH]; intros rejected; cbn [map Promise_all_task].
  - destruct rejected; exact I.
  - apply tame_plain_then; [apply plain_mark|]. intros r. apply IH.
Qed.

Lemma tame_send_item MessageObject (send : Sender) item expended :
  (forall tr u m, send tr u m = None) ->
  tame url false
    (@send_item_task url S MessageObject (Some send) item expended).
Proof.
  intros Hsend. unfold send_item_task.
  apply tame_plain_then; [apply plain_construct|intros messages].
  apply tame_plain_then; [now apply plain_reliable_send|intros _].
  apply tame_plain_then; [now apply plain_reliable_send|intros _].
  exact I.
Qed.

(** A call of the dispatcher over a channel that never throws: only
    its last operation registers a timer. *)
Lemma tame_sendQueuedItems MessageObject (send : Sender) from :
  (forall tr u m, send tr u m = None) ->
  tame url true (sendQueuedItems_task url MessageObject (Some send) from).
Proof.
  intros Hsend. unfold sendQueuedItems_task.
  apply tame_plain_then; [apply plain_batch_of_queued_items|].
  intros [|item rest]; cbn [no_length]; [exact I|].
  apply tame_and_then;
    [apply tame_for_of; intros; now apply tame_send_item|intros expended].
  apply tame_and_then; [apply tame_marks|intros _].
  apply tame_plain_then; [apply plain_delete|intros _].
  cbn. split; [apply blind_setTimeout|]. intros w.
  split; [right; auto|intros; exact I].
Qed.

Lemma tame_queue_user recUser acc :
  tame url false (queue_user_task recUser acc).
Proof.
  unfold queue_user_task.
  apply tame_plain_then; [apply plain_lookup|intros [recArticle|]].
  - apply tame_plain, plain_insert.
  - exact I.
Qed.

(** A call of the selector: the timer it registers starts a reader. *)
Lemma tame_queueBreakingNewsItems from :
  tame url false (queueBreakingNewsItems_task from).
Proof.
  unfold queueBreakingNewsItems_task.
  apply tame_plain_then; [apply plain_batch_of_users|].
  intros [|recUser rest]; cbn [no_length]; [exact I|].
  apply tame_and_then;
    [apply tame_for_of; intros; apply tame_queue_user|intros _].
  cbn. split; [apply blind_setTimeout|]. intros w.
  split; [|intros; exact I].
  left. eexists [_]. split; [reflexivity|].
  constructor; [apply selector_callback_is_a_reader|constructor].
Qed.

(** *** The caller next to readers *)

Lemma run_alone_step (m : Machine S) :
  run_alone (caller (step url resume_caller m))
    (world (step url resume_caller m))
  = run_alone (caller m) (world m).
Proof.
  cbn [step]. destruct (caller m) as [r|e|A op k] eqn:Hcaller;
    [rewrite Hcaller; reflexivity..|].
  cbn [run_alone]. destruct (op (world m)) as [[e|a] w1]; reflexivity.
Qed.

(** When the caller has ended after turns of its own, it is where its
    run with nothing in between ends. *)
Lemma caller_ended_alone (j : nat) :
  forall (m : Machine S),
    let mj := run url (repeat resume_caller j) m in
    has_ended (caller mj) = true ->
    world mj = snd (run_alone (caller m) (world m)) /\
    caller mj = ended (fst (run_alone (caller m) (world m))).
Proof.
  induction j as [|j IH]; intros m; cbn [repeat run].
  - intros Hended. destruct (caller m); try discriminate; cbn; auto.
  - intros Hended. rewrite <- run_alone_step. now apply IH.
Qed.

End TameFacts.

(* ================================================================== *)
(** ** The pipeline on the in-memory store *)

Section InMemoryRuns.

Variable url : string.

Lemma queue_user_mem recUser (w : World Mem) :
  queue_user recUser tt w =
    (inr tt,
     match owed (articles (db w)) recUser with
     | None => {| db := db w; trace := Get "Article" 0 :: trace w;
                  timers := timers w |}
     | Some a =>
         {| db := {| users := users (db w);
                     articles := articles (db w);
                     queue := queue (db w)
                              ++ enqueue_from (clock (db w))
                                   [ {| userData := recUser;
                                        articleData := a |} ];
                     clock := Datatypes.S (clock (db w)) |};
            trace := Insert "BreakingNewsQueuedItem"
                       {| userData := recUser; articleData := a |}
                     :: Get "Article" 0 :: trace w;
            timers := timers w |}
     end).
Proof.
  unfold queue_user, bind. rewrite getNextBreakingNewsForUser_mem.
  unfold owed. destruct (hd_error _); reflexivity.
Qed.

Lemma enqueue_from_app c ds1 ds2 :
  enqueue_from c (ds1 ++ ds2) =
  enqueue_from c ds1 ++ enqueue_from (c + List.length ds1) ds2.
Proof.
  revert c. induction ds1 as [|d ds1 IH]; intros c; cbn.
  - now rewrite Nat.add_0_r.
  - rewrite IH. now rewrite Nat.add_succ_r.
Qed.

Lemma queue_loop_mem_effect :
  forall recUsers (w : World Mem),
    exists w',
      for_of recUsers queue_user tt w = (inr tt, w') /\
      users (db w') = users (db w) /\
      articles (db w') = articles (db w) /\
      timers w' = timers w /\
      queue (db w') =
        queue (db w)
        ++ enqueue_from (clock (db w))
             (obligations (articles (db w)) recUsers) /\
      clock (db w') =
        clock (db w)
        + List.length (obligations (articles (db w)) recUsers).
Proof.
  induction recUsers as [|recUser recUsers IH]; intros w.
  - cbn. unfold ret. eexists. repeat split; auto.
    now rewrite app_nil_r.
  - cbn [for_of]. unfold bind at 1. rewrite queue_user_mem.
    match goal with
    | |- context [for_of recUsers queue_user tt ?w1] =>
        destruct (IH w1) as (w' & Hrun & Hu & Ha & Ht & Hq & Hc)
    end.
    exists w'. split; [exact Hrun|].
    unfold obligations in *. cbn [flat_map].
    destruct (owed (articles (db w)) recUser) as [a|] eqn:Howed;
      cbn [db users articles queue clock timers] in *.
    + rewrite Hu, Ha, Ht, Hq, Hc. repeat split; auto;
        try (rewrite <- app_assoc; reflexivity);
        try (cbn [List.length app]; lia).
    + rewrite Hu, Ha, Ht, Hq, Hc. repeat split; auto.
Qed.

(** The selector's batch over the in-memory store. *)
Lemma selector_batch_mem from (w : World Mem) :
  let recUsers := mem_find User_collection user_conditions
                    (user_options (default_to 0 from)) (db w) in
  let owing := obligations (articles (db w)) recUsers in
  exists w',
    queueBreakingNewsItems from w = (inr tt, w') /\
    users (db w') = users (db w) /\
    articles (db w') = articles (db w) /\
    queue (db w') = queue (db w) ++ enqueue_from (clock (db w)) owing /\
    clock (db w') = clock (db w) + List.length owing /\
    timers w' = timers w ++ match recUsers with
                            | [] => []
                            | _ :: _ => [selector_callback (default_to 0 from)]
                            end /\
    exists added, trace w' = added ++ trace w /\
                  Forall (fun ev => is_send ev = false) added.
Proof.
  intros recUsers owing.
  unfold queueBreakingNewsItems. unfold bind at 1.
  rewrite getBatchOfUsers_mem. cbn [default_to].
  fold recUsers. subst owing.
  destruct recUsers as [|recUser rest] eqn:Hbatch.
  - cbn. unfold ret. eexists. split; [reflexivity|]. cbn.
    rewrite !app_nil_r, Nat.add_0_r. do 5 (split; [reflexivity|]).
    eexists [_]. split; [reflexivity|]. repeat constructor.
  - cbn [no_length]. unfold bind at 1.
    match goal with
    | |- context [for_of _ queue_user tt ?w0] =>
        destruct (queue_loop_mem_effect (recUser :: rest) w0)
          as (w1 & Hloop & Hu & Ha & Ht & Hq & Hc)
    end.
    pose proof Hloop as Hframe. apply queue_loop_frame in Hframe.
    destruct Hframe as (_ & added & Htr & Hev).
    rewrite Hloop. unfold setTimeout. eexists. split; [reflexivity|].
    cbn [db trace timers users articles queue clock] in *.
    do 4 (split; [auto|]). split; [rewrite Ht; reflexivity|].
    exists (SetTimeout BATCH_DELAY_MS :: added ++ [Get "User" (default_to 0 from)]).
    rewrite Htr. cbn [app]. rewrite <- app_assoc. split; [reflexivity|].
    constructor; [reflexivity|]. apply Forall_app; split.
    + eapply Forall_impl; [|exact Hev]. intros [] He; cbn in *; congruence.
    + repeat constructor.
Qed.

Lemma obligations_length stored recUsers :
  List.length (obligations stored recUsers) <= List.length recUsers.
Proof.
  unfold obligations.
  induction recUsers as [|u recUsers IH]; [cbn; lia|].
  cbn [flat_map]. rewrite length_app.
  destruct (owed stored u); cbn [List.length]; lia.
Qed.

Lemma mem_find_length {A} (c : collection A) conditions options n s :
  limit options = Some n ->
  List.length (mem_find c conditions options s) <= n.
Proof.
  unfold mem_find, paginate. intros ->. rewrite length_firstn. lia.
Qed.

Lemma owed_is_eligible stored u a :
  owed stored u = Some a -> In a stored /\ eligible u a.
Proof.
  unfold owed. intros Hhd.
  assert (In a (sort_by (asc_date articleDate)
                  (filter (article_conditions u) stored))) as Hin.
  { destruct (sort_by _ _) as [|b l]; inversion Hhd; subst. now left. }
  apply sort_by_in, filter_In in Hin. destruct Hin as (Hin & Hc).
  split; auto. now apply article_conditions_eligible.
Qed.

Lemma obligations_in stored recUsers d :
  In d (obligations stored recUsers) ->
  In (userData d) recUsers /\ owed stored (userData d) = Some (articleData d).
Proof.
  unfold obligations. intros Hin. apply in_flat_map in Hin.
  destruct Hin as (u & Hu & Hd).
  destruct (owed stored u) as [a|] eqn:Ho; [|destruct Hd].
  destruct Hd as [<-|[]]. cbn. auto.
Qed.

(** X4. One call of the selector on the in-memory store returns
    normally, leaves users and articles alone and appends to the queue,
    in the order of the batch of users it read and stamped from the
    store's counter, one obligation for each user of that batch who is
    owed an article, and nothing else.  The batch adds at most
    [BATCH_SIZE] obligations, each for a stored user who is not disabled
    and for a stored article that user is eligible for. *)
Theorem selector_batch_enqueues_what_the_batch_is_owed
    from (w : World Mem) :
  let recUsers := mem_find User_collection user_conditions
                    (user_options (default_to 0 from)) (db w) in
  let owing := obligations (articles (db w)) recUsers in
  let '(r, w') := queueBreakingNewsItems from w in
  r = inr tt /\
  users (db w') = users (db w) /\
  articles (db w') = articles (db w) /\
  queue (db w') = queue (db w) ++ enqueue_from (clock (db w)) owing /\
  List.length owing <= BATCH_SIZE /\
  Forall (fun d => In (userData d) (users (db w)) /\
                   disabled (bot (userData d)) <> Some true /\
                   In (articleData d) (articles (db w)) /\
                   eligible (userData d) (articleData d)) owing.
Proof.
  intros recUsers owing.
  destruct (selector_batch_mem from w)
    as (w' & -> & Hu & Ha & Hq & _ & _ & _).
  fold recUsers owing in Hq.
  repeat split; auto.
  - subst owing. etransitivity; [apply obligations_length|].
    subst recUsers. now apply mem_find_length.
  - apply Forall_forall. intros d Hd.
    apply obligations_in in Hd. destruct Hd as (Hin & Howed).
    apply owed_is_eligible in Howed. destruct Howed as (Hart & Hel).
    subst recUsers. unfold mem_find in Hin. apply paginate_incl in Hin.
    apply sort_by_in, filter_In in Hin. destruct Hin as (Hin & Hcond).
    repeat split; auto; try apply Hel.
    unfold user_conditions, ne in Hcond.
    destruct (disabled (bot (userData d))) as [[]|]; cbn in Hcond; congruence.
Qed.

(** X5. The selector never looks at the queue: a second call over the
    same batch, with no dispatch in between, appends the same
    obligations a second time, so every owed (user, article) pair is
    then queued twice. *)
Theorem selector_run_twice_enqueues_everything_twice from (w : World Mem) :
  let recUsers := mem_find User_collection user_conditions
                    (user_options (default_to 0 from)) (db w) in
  let owing := obligations (articles (db w)) recUsers in
  let w1 := snd (queueBreakingNewsItems from w) in
  let w2 := snd (queueBreakingNewsItems from w1) in
  queue (db w2) =
    queue (db w)
    ++ enqueue_from (clock (db w)) owing
    ++ enqueue_from (clock (db w) + List.length owing) owing.
Proof.
  intros recUsers owing w1 w2. subst w1 w2.
  destruct (selector_batch_mem from w)
    as (w1 & H1 & Hu & Ha & Hq & Hc & _).
  rewrite H1. cbn [snd].
  destruct (selector_batch_mem from w1)
    as (w2 & H2 & _ & _ & Hq2 & _).
  rewrite H2. cbn [snd]. rewrite Hq2, Hq, Hc.
  unfold mem_find, mem_docs. rewrite Hu, Ha.
  rewrite <- app_assoc. reflexivity.
Qed.

Lemma addToSet_has x l : In x (addToSet x l).
Proof.
  unfold addToSet. destruct (existsb (String.eqb x) l) eqn:Hx.
  - apply existsb_exists in Hx. destruct Hx as (y & Hy & Hxy).
    apply String.eqb_eq in Hxy. now subst.
  - apply in_or_app. right. now left.
Qed.

(** X6. Once the dispatcher's received-set update for a queued (user,
    article) pair has run, the selector's lookup for that user never
    answers with an article of that identifier again. *)
Theorem marked_article_is_not_looked_up_again
    (d : QueueData) (w : World Mem) :
  let w1 := snd (mark_as_received d w) in
  match fst (getNextBreakingNewsForUser (userData d) w1) with
  | inr (Some a) => article_id a <> article_id (articleData d)
  | inr None => True
  | inl _ => False
  end.
Proof.
  intros w1. rewrite getNextBreakingNewsForUser_mem. cbn [fst].
  fold (owed (articles (db w1)) (userData d)).
  destruct (owed (articles (db w1)) (userData d)) as [a|] eqn:Howed; auto.
  apply owed_is_eligible in Howed. destruct Howed as (Hin & Hnot & _).
  intros Hid. apply Hnot. subst w1. cbn in Hin.
  apply in_map_iff in Hin. destruct Hin as (a0 & <- & _).
  destruct (String.eqb (article_id a0) (article_id (articleData d))) eqn:Ha0.
  - cbn. apply addToSet_has.
  - rewrite Hid in Ha0. rewrite String.eqb_refl in Ha0. discriminate.
Qed.


Lemma grown_refl l : grown l l.
Proof.
  unfold grown. induction l; constructor; auto.
  split; [reflexivity|apply incl_refl].
Qed.

Lemma grown_trans l1 l2 l3 : grown l1 l2 -> grown l2 l3 -> grown l1 l3.
Proof.
  unfold grown. intros H12. revert l3.
  induction H12 as [|a b l1 l2 (Hf & Hi) _ IH]; intros l3 H23;
    inversion H23 as [|b' c l2' l3' (Hf' & Hi') Hrest]; subst; constructor.
  - split; [congruence|]. eapply incl_tran; eauto.
  - apply IH. assumption.
Qed.

Lemma grown_in l l' a' :
  grown l l' -> In a' l' ->
  exists a, In a l /\ article_id a' = article_id a /\
            incl (_receivedByUsers a) (_receivedByUsers a').
Proof.
  unfold grown. induction 1 as [|a b l l' (Hf & Hi) _ IH]; intros Hin.
  - destruct Hin.
  - destruct Hin as [<-|Hin].
    + exists a. split; [now left|]. split; auto.
      change (article_id (forget_received b)
              = article_id (forget_received a)). now rewrite Hf.
    + destruct (IH Hin) as (x & Hx & Hrest). exists x. split; auto.
      now right.
Qed.

(** One received-set update on the in-memory store. *)
Lemma mark_as_received_mem d (w : World Mem) :
  mark_as_received d w =
    (inr tt,
     {| db := {| users := users (db w);
                 articles :=
                   map (fun a =>
                          if String.eqb (article_id a)
                               (article_id (articleData d))
                          then apply_mutation
                                 (addToSet_receivedByUsers
                                    (user_id (userData d))) a
                          else a) (articles (db w));
                 queue := queue (db w);
                 clock := clock (db w) |};
        trace := Update "Article" (articleData d)
                   (addToSet_receivedByUsers (user_id (userData d)))
                 :: trace w;
        timers := timers w |}).
Proof. reflexivity. Qed.

Lemma mark_as_received_grows d (w : World Mem) :
  grown (articles (db w)) (articles (db (snd (mark_as_received d w)))).
Proof.
  rewrite mark_as_received_mem. cbn [snd db articles]. unfold grown.
  induction (articles (db w)) as [|a l IH]; cbn [map]; constructor; auto.
  destruct (String.eqb (article_id a) (article_id (articleData d))).
  - split; [reflexivity|apply addToSet_keeps].
  - split; [reflexivity|apply incl_refl].
Qed.

Lemma mark_as_received_marks d (w : World Mem) a' :
  In a' (articles (db (snd (mark_as_received d w)))) ->
  article_id a' = article_id (articleData d) ->
  In (user_id (userData d)) (_receivedByUsers a').
Proof.
  rewrite mark_as_received_mem. cbn [snd db articles]. intros Hin Hid.
  apply in_map_iff in Hin. destruct Hin as (a0 & <- & _).
  destruct (String.eqb (article_id a0) (article_id (articleData d))) eqn:Ha0.
  - cbn. apply addToSet_has.
  - rewrite Hid, String.eqb_refl in Ha0. discriminate.
Qed.

(** All the received-set updates of a batch on the in-memory store. *)
Lemma Promise_all_mem_effect :
  forall data (w : World Mem),
    exists w',
      Promise_all (map mark_as_received data) w = (inr tt, w') /\
      users (db w') = users (db w) /\
      queue (db w') = queue (db w) /\
      clock (db w') = clock (db w) /\
      grown (articles (db w)) (articles (db w')) /\
      forall d a', In d data -> In a' (articles (db w')) ->
                   article_id a' = article_id (articleData d) ->
                   In (user_id (userData d)) (_receivedByUsers a').
Proof.
  induction data as [|d data IH]; intros w.
  - cbn. eexists. repeat split; auto using grown_refl.
    intros ? ? [].
  - cbn [map Promise_all].
    pose proof (mark_as_received_grows d w) as Hgrow.
    pose proof (mark_as_received_marks d w) as Hmark.
    rewrite mark_as_received_mem in *. cbn [snd] in *.
    match goal with
    | |- context [Promise_all _ ?w1] =>
        destruct (IH w1) as (w' & Hrun & Hu & Hq & Hc & Hg & Hall)
    end.
    rewrite Hrun. exists w'. cbn [db users queue clock articles] in *.
    split; [reflexivity|]. do 3 (split; [assumption|]).
    split; [eapply grown_trans; eauto|].
    intros d' a' [<-|Hd'] Ha' Hid.
    + destruct (@grown_in _ _ _ Hg Ha') as (a1 & Ha1 & Hid1 & Hincl).
      apply Hincl. apply Hmark; auto. congruence.
    + eapply Hall; eauto.
Qed.

Lemma dispatcher_mem_step MessageObject sendMessage from (w : World Mem) :
  let page := mem_find QUEUE_COLLECTION (fun _ => true)
                (queue_options (default_to 0 from)) (db w) in
  let w0 := {| db := db w;
               trace := Get "BreakingNewsQueuedItem" (default_to 0 from)
                        :: trace w;
               timers := timers w |} in
  sendQueuedItems url MessageObject sendMessage from w =
    match page with
    | [] => (inr tt, w0)
    | _ :: _ =>
        match for_of page (send_item url MessageObject sendMessage)
                ([], []) w0 with
        | (inl e, w1) => (inl e, w1)
        | (inr expended, w1) =>
            let w2 := snd (Promise_all
                             (map mark_as_received (snd expended)) w1) in
            (inr tt,
             {| db := {| users := users (db w2);
                         articles := articles (db w2);
                         queue :=
                           filter (fun q => negb (existsb
                                                    (String.eqb (queue_id q))
                                                    (fst expended)))
                             (queue (db w2));
                         clock := clock (db w2) |};
                trace := SetTimeout BATCH_DELAY_MS
                         :: DeleteWhere "BreakingNewsQueuedItem"
                              (fst expended)
                         :: trace w2;
                timers := timers w2
                          ++ [ {| bound_MessageObject := MessageObject;
                                  bound_sendMessage := sendMessage;
                                  bound_skip :=
                                    Some (default_to 0 from + BATCH_SIZE)
                               |} ] |})
        end
    end.
Proof.
  intros page w0. rewrite sendQueuedItems_unfold.
  cbn [get MemDatabase mem_get or_empty]. fold page. fold w0.
  destruct page as [|item page']; [reflexivity|].
  destruct (for_of _ _ _ w0) as [[e|expended] w1]; [reflexivity|].
  destruct (Promise_all_mem (snd expended) w1) as (w2 & Hmarks).
  rewrite Hmarks. reflexivity.
Qed.


Lemma filter_all {A} (f : A -> bool) (l : list A) :
  (forall x, In x l -> f x = true) -> filter f l = l.
Proof.
  induction l as [|x l IH]; intros Hall; cbn; [reflexivity|].
  rewrite (Hall x) by now left. f_equal. apply IH.
  intros y Hy. apply Hall. now right.
Qed.

Lemma filter_shrinks {A} (f : A -> bool) (l : list A) x :
  In x l -> f x = false -> List.length (filter f l) < List.length l.
Proof.
  induction l as [|y l IH]; intros Hin Hx; [destruct Hin|].
  cbn. pose proof (filter_length_le f l) as Hle.
  destruct Hin as [->|Hin].
  - rewrite Hx. lia.
  - specialize (IH Hin Hx). destruct (f y); cbn; lia.
Qed.

Lemma page_in_queue from (s : Mem) q :
  In q (mem_find QUEUE_COLLECTION (fun _ => true)
          (queue_options (default_to 0 from)) s) ->
  In q (queue s).
Proof.
  unfold mem_find. intros Hin. apply paginate_incl in Hin.
  apply sort_by_in, filter_In in Hin. apply Hin.
Qed.

Lemma existsb_eqb_in x l : In x l -> existsb (String.eqb x) l = true.
Proof.
  intros Hin. apply existsb_exists. exists x. split; auto.
  apply String.eqb_refl.
Qed.

(** A batch the dispatcher gets through, on the in-memory store. *)
Lemma dispatcher_mem_delivered (send : Sender) from (w : World Mem) :
  (forall tr u m, send tr u m = None) ->
  let page := mem_find QUEUE_COLLECTION (fun _ => true)
                (queue_options (default_to 0 from)) (db w) in
  exists w',
    sendQueuedItems url MessageObject (Some send) from w = (inr tt, w') /\
    users (db w') = users (db w) /\
    clock (db w') = clock (db w) /\
    queue (db w') =
      filter (fun q => negb (existsb (String.eqb (queue_id q))
                               (map queue_id page))) (queue (db w)) /\
    grown (articles (db w)) (articles (db w')) /\
    (forall q a', In q page -> In a' (articles (db w')) ->
       article_id a' = article_id (articleData (queue_data q)) ->
       In (user_id (userData (queue_data q))) (_receivedByUsers a')) /\
    timers w' =
      timers w ++
      match page with
      | [] => []
      | _ :: _ => [ {| bound_MessageObject := MessageObject;
                       bound_sendMessage := Some send;
                       bound_skip := Some (default_to 0 from + BATCH_SIZE) |} ]
      end /\
    trace w' =
      match page with
      | [] => []
      | _ :: _ =>
          SetTimeout BATCH_DELAY_MS
          :: DeleteWhere "BreakingNewsQueuedItem" (map queue_id page)
          :: rev (map update_of page) ++ rev (flat_map (sends_of url) page)
      end
      ++ Get "BreakingNewsQueuedItem" (default_to 0 from) :: trace w.
Proof.
  intros Hsend page. rewrite dispatcher_mem_step. fold page.
  unfold Sender in *.
  destruct page as [|item rest] eqn:Hpage.
  - eexists. split; [reflexivity|]. cbn [db users clock queue articles
                                         timers trace map existsb negb app].
    rewrite app_nil_r. repeat split; auto using grown_refl.
    + symmetry. apply filter_all. reflexivity.
    + intros ? ? [].
  - match goal with
    | |- context [for_of ?items _ ?acc ?w0] =>
        destruct (send_loop_reliable url send Hsend items acc w0)
          as (expended & w1 & Hloop)
    end.
    rewrite Hloop.
    pose proof Hloop as Hdone. apply send_loop_done in Hdone.
    destruct Hdone as (Hexp & Htr1).
    pose proof Hloop as Hframe. apply send_loop_frame in Hframe.
    destruct Hframe as (Hdb1 & Htm1 & _).
    cbn [fst snd app db trace timers] in Hexp, Htr1, Hdb1, Htm1.
    subst expended. cbn [fst snd].
    destruct (Promise_all_mem_effect (map queue_data (item :: rest)) w1)
      as (w2 & Hmarks & Hu & Hq & Hc & Hg & Hall).
    pose proof Hmarks as Hmt. apply Promise_all_marks in Hmt.
    destruct Hmt as (Htr2 & Htm2).
    rewrite Hmarks. cbn [snd]. eexists. split; [reflexivity|].
    cbn [db users clock queue articles timers trace].
    rewrite Hu, Hc, Hq, Hdb1, Htm2, Htm1, Htr2, Htr1.
    do 3 (split; [reflexivity|]).
    split; [rewrite <- Hdb1; exact Hg|].
    split.
    + intros q a' Hq' Ha' Hid.
      apply (Hall (queue_data q) a'); auto. now apply in_map.
    + split; [reflexivity|]. rewrite map_map. cbn [app].
      rewrite <- app_assoc. reflexivity.
Qed.

(** Whatever the channel does, a call of the dispatcher on the in-memory
    store leaves the users alone, adds nothing to the queue, and
    registers a timer only when it has shortened the queue. *)
Lemma dispatcher_mem_progress MessageObject sendMessage from
    (w w' : World Mem) r :
  sendQueuedItems url MessageObject sendMessage from w = (r, w') ->
  users (db w') = users (db w) /\
  incl (queue (db w')) (queue (db w)) /\
  (timers w' = timers w \/
   (exists t, timers w' = timers w ++ [t]) /\
   List.length (queue (db w')) < List.length (queue (db w))).
Proof.
  rewrite dispatcher_mem_step.
  destruct (mem_find QUEUE_COLLECTION _ _ (db w)) as [|item rest] eqn:Hpage.
  { intros H; inversion H; subst. cbn. auto using incl_refl. }
  destruct (for_of _ _ _ _) as [[e|expended] w1] eqn:Hloop.
  - intros H; inversion H; subst.
    apply send_loop_frame in Hloop. destruct Hloop as (Hdb & Htm & _).
    cbn [db timers] in *. rewrite Hdb. auto using incl_refl.
  - intros H; inversion H; subst; clear H.
    pose proof Hloop as Hdone. apply send_loop_done in Hdone.
    destruct Hdone as (Hexp & _).
    pose proof Hloop as Hframe. apply send_loop_frame in Hframe.
    destruct Hframe as (Hdb1 & Htm1 & _).
    cbn [fst snd app db trace timers] in Hexp, Hdb1, Htm1. subst expended.
    destruct (Promise_all_mem_effect (map queue_data (item :: rest)) w1)
      as (w2 & Hmarks & Hu & Hq & _).
    pose proof Hmarks as Hmt. apply Promise_all_marks in Hmt.
    destruct Hmt as (_ & Htm2).
    cbn [fst snd]. rewrite Hmarks. cbn [snd db users queue timers].
    rewrite Hu, Hq, Hdb1, Htm2, Htm1.
    split; [reflexivity|]. split; [apply incl_filter|].
    right. split; [eauto|].
    apply filter_shrinks with (x := item).
    + apply (page_in_queue from). rewrite Hpage. now left.
    + apply negb_false_iff, existsb_eqb_in. now left.
Qed.


(** X7. Over a channel that never throws, one call of the dispatcher
    on the in-memory store returns normally, leaves the users alone and
    keeps in the queue exactly the items whose identifier is not in the
    batch it read.  No item of the batch is queued any more, and none of
    their users is owed the article they were just sent. *)
Theorem delivered_batch_is_removed_and_not_owed_again
    (send : Sender) from (w : World Mem) :
  (forall tr u m, send tr u m = None) ->
  let page := mem_find QUEUE_COLLECTION (fun _ => true)
                (queue_options (default_to 0 from)) (db w) in
  let '(r, w') := sendQueuedItems url MessageObject (Some send) from w in
  r = inr tt /\
  users (db w') = users (db w) /\
  queue (db w') =
    filter (fun q => negb (existsb (String.eqb (queue_id q))
                             (map queue_id page))) (queue (db w)) /\
  Forall (fun q =>
            ~ In q (queue (db w')) /\
            match owed (articles (db w')) (userData (queue_data q)) with
            | Some a => article_id a <> article_id (articleData (queue_data q))
            | None => True
            end) page.
Proof.
  intros Hsend page.
  destruct (dispatcher_mem_delivered send from w Hsend)
    as (w' & -> & Hu & _ & Hq & _ & Hmarked & _).
  fold page in Hq, Hmarked.
  split; [reflexivity|]. do 2 (split; [assumption|]).
  apply Forall_forall. intros q Hin. split.
  - rewrite Hq. intros Habs. apply filter_In in Habs.
    destruct Habs as (_ & Habs). apply negb_true_iff in Habs.
    rewrite existsb_eqb_in in Habs; [discriminate|]. now apply in_map.
  - destruct (owed (articles (db w')) (userData (queue_data q)))
      as [a|] eqn:Howed; auto.
    apply owed_is_eligible in Howed. destruct Howed as (Ha & Hnot & _).
    intros Hid. apply Hnot. eapply Hmarked; eauto.
Qed.

(** The timers a drain leaves run out. *)
Lemma run_timers_mem_ends :
  forall fuel (w : World Mem),
    timers w = [] \/
    ((exists t, timers w = [t]) /\ List.length (queue (db w)) < fuel) ->
    exists wf,
      run_timers url fuel w = Some wf /\ timers wf = [] /\
      users (db wf) = users (db w) /\
      incl (queue (db wf)) (queue (db w)).
Proof.
  induction fuel as [|fuel IH]; intros w [Hnone|((t & Ht) & Hlt)].
  - exists w. cbn. rewrite Hnone. auto using incl_refl.
  - lia.
  - exists w. cbn. rewrite Hnone. auto using incl_refl.
  - cbn [run_timers]. rewrite Ht. unfold fire_next, fire.
    destruct (sendQueuedItems url _ _ _ _) as [r w1] eqn:Hfire.
    apply dispatcher_mem_progress in Hfire.
    destruct Hfire as (Hu & Hincl & Hprog). cbn [db timers app] in *.
    match goal with
    | |- context [run_timers url fuel ?w2] =>
        destruct (IH w2) as (wf & Hrun & Hnone & Hu' & Hincl')
    end.
    { destruct r as [e|[]]; cbn [timers db];
        (destruct Hprog as [Hsame|(Hone & Hless)]; [left; exact Hsame|]);
        right; (split; [exact Hone|lia]). }
    exists wf. split; [exact Hrun|]. split; [exact Hnone|].
    destruct r as [e|[]]; cbn [db] in *;
      (split; [congruence|eapply incl_tran; eauto]).
Qed.

(** X8. A drain run of the dispatcher over a channel whose every send
    settles (it resolves or it throws, as every [Sender] does) comes to
    an end, whichever of the two each send does: after at most one
    callback per obligation that was queued, plus one, no timer is
    pending.  The run never touches the users and never adds to the
    queue. *)
Theorem drain_run_always_ends (send : Sender) (s : Mem) :
  exists wf,
    drain_run url send s = Some wf /\
    timers wf = [] /\
    users (db wf) = users s /\
    incl (queue (db wf)) (queue s).
Proof.
  unfold drain_run.
  destruct (sendQueuedItems url MessageObject (Some send) None (boot s))
    as [r w1] eqn:Hfirst.
  apply dispatcher_mem_progress in Hfirst.
  destruct Hfirst as (Hu & Hincl & Hprog). cbn [snd boot db timers app] in *.
  destruct (@run_timers_mem_ends (Datatypes.S (List.length (queue s))) w1)
    as (wf & Hrun & Hnone & Hu' & Hincl').
  { destruct Hprog as [Hsame|(Hone & Hless)]; [left; exact Hsame|].
    right. split; [exact Hone|lia]. }
  exists wf. repeat split; auto; [congruence|eapply incl_tran; eauto].
Qed.

Lemma sort_by_enqueued c ds :
  sort_by (asc_date addedDate) (enqueue_from c ds) = enqueue_from c ds.
Proof.
  revert c. induction ds as [|d ds IH]; intros c; [reflexivity|].
  cbn [enqueue_from].
  change (sort_by (asc_date addedDate) (?x :: ?l))
    with (insert_sorted (asc_date addedDate) x
            (sort_by (asc_date addedDate) l)).
  rewrite IH. destruct ds as [|d' ds]; [reflexivity|].
  cbn [enqueue_from insert_sorted]. unfold asc_date at 1. cbn [addedDate].
  replace (Z.of_nat c <=? Z.of_nat (Datatypes.S c))%Z with true;
    [reflexivity|].
  symmetry. apply Z.leb_le. lia.
Qed.

Lemma whole_queue_is_one_batch (s : Mem) :
  List.length (queue s) <= BATCH_SIZE ->
  mem_find QUEUE_COLLECTION (fun _ => true) (queue_options 0) s
  = sort_by (asc_date addedDate) (queue s).
Proof.
  intros Hlen. unfold mem_find, paginate, queue_options.
  cbn [skip limit sort mem_docs default_to skipn].
  rewrite filter_all by reflexivity.
  apply firstn_all2.
  rewrite (Permutation_length (sort_by_perm _ _)). exact Hlen.
Qed.

Lemma no_batch_in_an_empty_queue from (s : Mem) :
  queue s = [] ->
  mem_find QUEUE_COLLECTION (fun _ => true) (queue_options from) s = [].
Proof.
  intros Hq. unfold mem_find, paginate, queue_options.
  cbn [skip limit sort mem_docs default_to]. rewrite Hq. cbn [filter sort_by fold_right].
  now rewrite skipn_nil, firstn_nil.
Qed.

Lemma delete_whole_queue (l page : list QueueItem) :
  incl l page ->
  filter (fun q => negb (existsb (String.eqb (queue_id q))
                           (map queue_id page))) l = [].
Proof.
  intros Hincl. apply filter_none. apply Forall_forall. intros q Hq.
  apply negb_false_iff, existsb_eqb_in, in_map, Hincl, Hq.
Qed.

Lemma sends_are_sends page :
  filter is_send (flat_map (sends_of url) page)
  = flat_map (sends_of url) page.
Proof.
  apply filter_all. intros ev Hev. apply in_flat_map in Hev.
  destruct Hev as (q & _ & [<-|[<-|[]]]); reflexivity.
Qed.

Lemma updates_are_no_sends page :
  filter is_send (map update_of page) = [].
Proof.
  apply filter_none, Forall_map, Forall_forall. reflexivity.
Qed.


Lemma run_timers_idle fuel (w : World Mem) :
  timers w = [] -> run_timers url fuel w = Some w.
Proof. intros Hnone. destruct fuel; cbn; now rewrite Hnone. Qed.

Lemma sends_of_record page evs :
  filter is_send
    (rev (rev (map update_of page) ++ rev (flat_map (sends_of url) page)
          ++ evs))
  = filter is_send (rev evs) ++ flat_map (sends_of url) page.
Proof.
  rewrite !rev_app_distr, !rev_involutive, !filter_app.
  now rewrite sends_are_sends, updates_are_no_sends, app_nil_r.
Qed.

(** X9. When the queue holds at most [BATCH_SIZE] obligations and the
    channel never throws, a drain run empties the queue and leaves no
    timer pending; the sends it made are, oldest obligation first, the
    alert and then the card of each obligation, once each; and every
    stored article of a queued obligation has that obligation's user in
    its received-set. *)
Theorem drain_of_one_batch_empties_the_queue (send : Sender) (s : Mem) :
  (forall tr u m, send tr u m = None) ->
  List.length (queue s) <= BATCH_SIZE ->
  exists wf,
    drain_run url send s = Some wf /\
    queue (db wf) = [] /\
    timers wf = [] /\
    filter is_send (history wf)
      = flat_map (sends_of url) (sort_by (asc_date addedDate) (queue s)) /\
    forall q a', In q (queue s) -> In a' (articles (db wf)) ->
      article_id a' = article_id (articleData (queue_data q)) ->
      In (user_id (userData (queue_data q))) (_receivedByUsers a').
Proof.
  intros Hsend Hlen. unfold drain_run.
  destruct (dispatcher_mem_delivered send None (boot s) Hsend)
    as (w1 & H1 & _ & _ & Hq & _ & Hm & Htm & Htr).
  rewrite H1. cbn [snd]. cbn [default_to boot db trace timers app] in *.
  rewrite whole_queue_is_one_batch in * by exact Hlen.
  set (page := sort_by (asc_date addedDate) (queue s)) in *.
  assert (Hall : incl (queue s) page).
  { intros q Hin. apply (sort_by_in (asc_date addedDate)). exact Hin. }
  rewrite delete_whole_queue in Hq by exact Hall.
  destruct page as [|item rest] eqn:Hpage.
  - rewrite run_timers_idle by exact Htm.
    exists w1. do 3 (split; [auto|]). split.
    + unfold history. rewrite Htr. reflexivity.
    + intros q a' Hin. apply Hall in Hin. destruct Hin.
  - cbn [run_timers]. rewrite Htm. unfold fire_next, fire.
    cbn [bound_MessageObject bound_sendMessage bound_skip].
    match goal with
    | |- context [sendQueuedItems url MessageObject (Some send) ?sk ?w0] =>
        destruct (dispatcher_mem_delivered send sk w0 Hsend)
          as (w2 & H2 & _ & _ & Hq2 & Hg2 & _ & Htm2 & Htr2)
    end.
    rewrite H2. cbn [db trace timers] in *.
    rewrite no_batch_in_an_empty_queue in * by exact Hq.
    cbn [app] in *. rewrite Hq in Hq2. cbn [filter] in Hq2.
    rewrite run_timers_idle by exact Htm2.
    exists w2. do 3 (split; [auto|]). split.
    + unfold history. rewrite Htr2, Htr.
      rewrite filter_rev. cbn [filter is_send]. rewrite <- filter_rev.
      rewrite <- app_assoc, sends_of_record. reflexivity.
    + intros q a' Hin Ha' Hid.
      destruct (@grown_in _ _ _ Hg2 Ha') as (a1 & Ha1 & Hid1 & Hincl).
      apply Hincl. apply (Hm q a1); auto. congruence.
Qed.


(** On an empty queue a call of the dispatcher is one read. *)
Lemma dispatcher_mem_idle MessageObject sendMessage from (w : World Mem) :
  queue (db w) = [] ->
  sendQueuedItems url MessageObject sendMessage from w =
    (inr tt,
     {| db := db w;
        trace := Get "BreakingNewsQueuedItem" (default_to 0 from) :: trace w;
        timers := timers w |}).
Proof.
  intros Hq. rewrite dispatcher_mem_step.
  now rewrite no_batch_in_an_empty_queue by exact Hq.
Qed.

Lemma enqueue_from_length c ds :
  List.length (enqueue_from c ds) = List.length ds.
Proof.
  revert c. induction ds as [|d ds IH]; intros c; cbn; [reflexivity|].
  now rewrite IH.
Qed.

Lemma enqueue_from_data c ds : map queue_data (enqueue_from c ds) = ds.
Proof.
  revert c. induction ds as [|d ds IH]; intros c; cbn; [reflexivity|].
  now rewrite IH.
Qed.

Lemma fire_task_idle (t : Timer) : idle_on_an_empty_queue (fire_task url t).
Proof.
  unfold fire_task, sendQueuedItems_task. cbn [and_then perform].
  intros w Hq. rewrite getBatchOfQueuedItems_mem. cbn [fst snd db trace].
  rewrite no_batch_in_an_empty_queue by exact Hq.
  cbn. auto.
Qed.

Lemma Forall_set_nth {A} (P : A -> Prop) (x : A) :
  forall i l, P x -> Forall P l -> Forall P (set_nth i x l).
Proof.
  intros i l Hx Hl. revert i.
  induction Hl as [|y l Hy Hl IH]; intros [|i]; cbn; auto.
Qed.

(** Once the caller has ended on an empty queue, with only callbacks
    that are idle on one, no turn changes the store or sends
    anything. *)
Lemma step_on_an_empty_queue (c : turn) (m : Machine Mem) :
  queue (db (world m)) = [] ->
  (forall A (op : M Mem A) k, caller m <> Await op k) ->
  Forall idle_on_an_empty_queue (callbacks m) ->
  db (world (step url c m)) = db (world m) /\
  filter is_send (trace (world (step url c m)))
    = filter is_send (trace (world m)) /\
  (forall A (op : M Mem A) k, caller (step url c m) <> Await op k) /\
  Forall idle_on_an_empty_queue (callbacks (step url c m)).
Proof.
  intros Hq Hended Hidle. destruct c as [|i|]; cbn [step].
  - destruct (caller m) as [r|e|A op k] eqn:Hcaller;
      [rewrite ?Hcaller; auto..|].
    now destruct (Hended A op k).
  - destruct (nth_error (callbacks m) i) as [[r|e|A op k]|] eqn:Hnth; auto.
    assert (Hc : idle_on_an_empty_queue (Await op k)).
    { eapply Forall_forall; [exact Hidle|]. eapply nth_error_In, Hnth. }
    cbn [idle_on_an_empty_queue] in Hc.
    destruct (Hc _ Hq) as (Hdb & Hsends & Hnext).
    destruct (op (world m)) as [[e|a] w1]; cbn [fst snd] in *;
      cbn [world caller callbacks db trace filter is_send];
      repeat split; auto using Forall_set_nth.
  - destruct (timers (world m)) as [|t rest]; auto.
    cbn [world caller callbacks db trace]. repeat split; auto.
    apply Forall_app. split; [exact Hidle|].
    constructor; [apply fire_task_idle|constructor].
Qed.

Lemma run_on_an_empty_queue (turns : list turn) :
  forall (m : Machine Mem),
    queue (db (world m)) = [] ->
    (forall A (op : M Mem A) k, caller m <> Await op k) ->
    Forall idle_on_an_empty_queue (callbacks m) ->
    db (world (run url turns m)) = db (world m) /\
    filter is_send (trace (world (run url turns m)))
      = filter is_send (trace (world m)).
Proof.
  induction turns as [|c turns IH]; intros m Hq Hended Hidle; cbn [run];
    [auto|].
  destruct (step_on_an_empty_queue c m Hq Hended Hidle)
    as (Hdb & Hsends & Hended' & Hidle').
  destruct (IH (step url c m)) as [Hdb' Hsends']; auto.
  - now rewrite Hdb.
  - split; congruence.
Qed.

(** The three calls of the orchestrator, one after the other with
    nothing in between, over a store whose queue is empty and a channel
    that never throws. *)
Lemma three_calls_on_an_empty_queue (send : Sender) (s : Mem) :
  (forall tr u m, send tr u m = None) ->
  queue s = [] ->
  let recUsers := mem_find User_collection user_conditions
                    (user_options 0) s in
  let owing := obligations (articles s) recUsers in
  exists w',
    (sendQueuedItems url MessageObject (Some send) None ;;
     queueBreakingNewsItems None ;;
     sendQueuedItems url MessageObject (Some send) None) (boot s)
      = (inr tt, w') /\
    queue (db w') = [] /\
    users (db w') = users s /\
    grown (articles s) (articles (db w')) /\
    filter is_send (history w')
      = flat_map (sends_of url) (enqueue_from (clock s) owing) /\
    Forall (fun d =>
              forall a', In a' (articles (db w')) ->
                article_id a' = article_id (articleData d) ->
                In (user_id (userData d)) (_receivedByUsers a')) owing.
Proof.
  intros Hsend Hempty recUsers owing.
  unfold bind.
  rewrite dispatcher_mem_idle by exact Hempty.
  match goal with
  | |- context [queueBreakingNewsItems None ?w1] =>
      destruct (selector_batch_mem None w1)
        as (w2 & H2 & Hu2 & Ha2 & Hq2 & _ & Htm2 & added & Htr2 & Hnone)
  end.
  rewrite H2. cbn [boot db trace timers default_to app] in *.
  fold recUsers in Hq2. fold owing in Hq2.
  rewrite Hempty in Hq2. cbn [app] in Hq2.
  destruct (dispatcher_mem_delivered send None w2 Hsend)
    as (w3 & H3 & Hu3 & _ & Hq3 & Hg3 & Hm3 & Htm3 & Htr3).
  rewrite H3. cbn [default_to] in *.
  assert (Hpage : mem_find QUEUE_COLLECTION (fun _ => true)
                    (queue_options 0) (db w2)
                  = enqueue_from (clock s) owing).
  { rewrite whole_queue_is_one_batch.
    - rewrite Hq2. apply sort_by_enqueued.
    - rewrite Hq2, enqueue_from_length. subst owing.
      etransitivity; [apply obligations_length|].
      subst recUsers. now apply mem_find_length. }
  rewrite Hpage in *.
  assert (Hdrained : queue (db w3) = []).
  { rewrite Hq3, Hq2. apply delete_whole_queue, incl_refl. }
  exists w3. split; [reflexivity|].
  split; [exact Hdrained|].
  split; [congruence|].
  split; [rewrite <- Ha2; exact Hg3|].
  split.
  - unfold history. rewrite Htr3, Htr2.
    assert (Hquiet : filter is_send
                       (rev (Get "BreakingNewsQueuedItem" 0
                             :: added ++ [Get "BreakingNewsQueuedItem" 0]))
                     = []).
    { rewrite filter_rev. cbn [filter is_send]. rewrite filter_app.
      rewrite (filter_none _ Hnone). reflexivity. }
    destruct (enqueue_from (clock s) owing) as [|item rest] eqn:Hitems.
    + cbn [app flat_map]. exact Hquiet.
    + rewrite filter_rev. cbn [app filter is_send]. rewrite <- filter_rev.
      rewrite <- app_assoc, sends_of_record, Hquiet. reflexivity.
  - apply Forall_forall. intros d Hd a' Ha' Hid.
    assert (exists q, In q (enqueue_from (clock s) owing)
                      /\ queue_data q = d) as (q & Hq & <-).
    { rewrite <- (enqueue_from_data (clock s) owing) in Hd.
      apply in_map_iff in Hd. destruct Hd as (q & Hqd & Hq). eauto. }
    eapply Hm3; eauto.
Qed.

(** X11. When a call of the dispatcher on the in-memory store ends in
    an error, the store is as it was, so a retry over a channel that
    never throws reads the same batch and gets through it: every message
    that the failed call had already delivered is delivered again. *)
Theorem retry_sends_a_failed_batch_again
    (send1 send2 : Sender) from (w w1 : World Mem) e added1 u m :
  sendQueuedItems url MessageObject (Some send1) from w = (inl e, w1) ->
  trace w1 = added1 ++ trace w ->
  In (Send u m None) added1 ->
  (forall tr u' m', send2 tr u' m' = None) ->
  db w1 = db w /\
  exists w2 added2,
    sendQueuedItems url MessageObject (Some send2) from w1 = (inr tt, w2) /\
    trace w2 = added2 ++ trace w1 /\
    In (Send u m None) added2.
Proof.
  intros Hfail Hadded Hdelivered Hsend2.
  rewrite dispatcher_mem_step in Hfail.
  destruct (mem_find QUEUE_COLLECTION _ _ (db w)) as [|item rest] eqn:Hpage;
    [discriminate|].
  destruct (for_of _ _ _ _) as [[e'|expended] w'] eqn:Hloop;
    [|discriminate].
  inversion Hfail; subst e' w'; clear Hfail.
  pose proof Hloop as Hframe. apply send_loop_frame in Hframe.
  destruct Hframe as (Hdb & _ & added & Htr & _). cbn [db trace] in Hdb, Htr.
  split; [exact Hdb|].
  assert (Howed : In (Send u m None)
                    (flat_map (sends_of url) (item :: rest))).
  { eapply send_loop_delivers_what_is_owed; [exact Hloop|exact Htr|].
    rewrite Htr in Hadded.
    change (added ++ Get "BreakingNewsQueuedItem" (default_to 0 from)
                     :: trace w)
      with (added ++ [Get "BreakingNewsQueuedItem" (default_to 0 from)]
                  ++ trace w) in Hadded.
    rewrite app_assoc in Hadded. apply app_inv_tail in Hadded.
    subst added1. apply in_app_or in Hdelivered.
    destruct Hdelivered as [Hin|[Hin|[]]]; [exact Hin|discriminate]. }
  destruct (dispatcher_mem_delivered send2 from w1 Hsend2)
    as (w2 & H2 & _ & _ & _ & _ & _ & _ & Htr2).
  rewrite Hdb, Hpage in Htr2.
  exists w2. eexists (_ ++ [_]). split; [exact H2|].
  split; [rewrite Htr2, <- app_assoc; reflexivity|].
  apply in_or_app. left. right. right. apply in_or_app. right.
  apply in_rev. rewrite rev_involutive. exact Howed.
Qed.


End InMemoryRuns.

(* ================================================================== *)
(** ** The orchestrator on the in-memory store, under the event loop *)

Section OrchestratorRuns.

Variable url : string.

Lemma reader_is_idle (c : Async Mem unit) :
  reader c -> idle_on_an_empty_queue c.
Proof.
  induction c as [r|e|A op k IH]; cbn; auto.
  intros Hreader w _. destruct (Hreader w) as ([Hdb Htr] & _ & Hnext).
  split; [exact Hdb|]. split; [exact Htr|].
  destruct (fst (op w)) as [e|a]; [exact I|]. apply IH, Hnext. reflexivity.
Qed.

Lemma run_keeps_idle (turns : list turn) :
  forall (m : Machine Mem),
    queue (db (world m)) = [] ->
    has_ended (caller m) = true ->
    Forall idle_on_an_empty_queue (callbacks m) ->
    Forall idle_on_an_empty_queue (callbacks (run url turns m)).
Proof.
  induction turns as [|c turns IH]; intros m Hq Hended Hidle; cbn [run];
    [exact Hidle|].
  destruct (step_on_an_empty_queue url c m Hq
              (@has_ended_not_waiting _ _ _ Hended) Hidle)
    as (Hdb & _ & Hended' & Hidle').
  apply IH; [now rewrite Hdb| |exact Hidle'].
  destruct (caller (step url c m)) as [r|e|A op k]; try reflexivity.
  now destruct (Hended' A op k).
Qed.

(** The caller among readers.  [m'] is the caller on its own; next to
    callbacks that only read, and with timers that only start such
    callbacks, the caller is at every moment where it is after some
    turns on its own, over the same store and with the same sends. *)
Lemma caller_among_readers (turns : list turn) :
  forall (m m' : Machine Mem),
    caller m = caller m' ->
    same_store (world m) (world m') ->
    tame url true (caller m) ->
    Forall reader (callbacks m) ->
    (has_ended (caller m) = false ->
     Forall (fun fn => reader (fire_task url fn : Async Mem unit))
       (timers (world m))) ->
    (forall j,
       let mj := run url (repeat resume_caller j) m' in
       has_ended (caller mj) = true -> queue (db (world mj)) = []) ->
    exists j,
      let mj := run url (repeat resume_caller j) m' in
      caller (run url turns m) = caller mj /\
      same_store (world (run url turns m)) (world mj) /\
      Forall idle_on_an_empty_queue (callbacks (run url turns m)).
Proof.
  induction turns as [|c turns IH];
    intros m m' Hcaller Hsame Htame Hreaders Htimers Hdrained.
  - exists 0. cbn. repeat split; try apply Hsame; auto.
    eapply Forall_impl; [|exact Hreaders]. apply reader_is_idle.
  - destruct (has_ended (caller m)) eqn:Hended.
    + (* the caller has ended: nothing changes the store any more *)
      assert (Hq : queue (db (world m)) = []).
      { destruct Hsame as [Hdb _]. rewrite Hdb.
        apply (Hdrained 0). cbn. now rewrite <- Hcaller. }
      assert (Hidle : Forall idle_on_an_empty_queue (callbacks m)).
      { eapply Forall_impl; [|exact Hreaders]. apply reader_is_idle. }
      destruct (@run_on_an_empty_queue url (c :: turns) m Hq
                  (@has_ended_not_waiting _ _ _ Hended) Hidle) as [Hdb Htr].
      destruct (@run_after_the_end url _ _ (c :: turns) m
                  (@has_ended_not_waiting _ _ _ Hended)) as [Hc _].
      exists 0. change (run url (repeat resume_caller 0) m') with m'.
      cbv zeta. split; [congruence|].
      split; [|now apply run_keeps_idle].
      eapply same_store_trans; [|exact Hsame]. split; assumption.
    + specialize (Htimers eq_refl). destruct c as [|i|]; cbn [run].
      * (* a turn of the caller *)
        destruct (caller m) as [r|e|A op k] eqn:Hm; try discriminate.
        cbn [tame] in Htame. destruct Htame as [Hblind Hw].
        destruct (Hw (world m)) as [Hts Hnext].
        destruct (Hblind _ _ Hsame) as [Hres Hsame1].
        destruct (IH (step url resume_caller m)
                     (step url resume_caller m')) as (j & Hj).
        -- cbn [step]. rewrite Hm, <- Hcaller.
           destruct (op (world m)) as [r w1], (op (world m')) as [r' w1'].
           cbn [fst snd caller] in *. now subst r'.
        -- cbn [step]. rewrite Hm, <- Hcaller.
           destruct (op (world m)) as [r w1], (op (world m')) as [r' w1'].
           exact Hsame1.
        -- cbn [step]. rewrite Hm.
           destruct (op (world m)) as [[e|a] w1]; cbn [caller fst] in *;
             [exact I|]. now apply Hnext.
        -- cbn [step]. rewrite Hm.
           destruct (op (world m)) as [r w1]. exact Hreaders.
        -- cbn [step]. rewrite Hm.
           destruct (op (world m)) as [[e|a] w1]; cbn [caller world snd] in *;
             [discriminate|]. intros Hgoes.
           destruct Hts as [(ts & Htm & Hts)|[_ Hlast]];
             [|rewrite Hlast in Hgoes; discriminate].
           rewrite Htm. apply Forall_app. split; [exact Htimers|exact Hts].
        -- intros j. apply (Hdrained (Datatypes.S j)).
        -- exists (Datatypes.S j). exact Hj.
      * (* a turn of a callback *)
        destruct (nth_error (callbacks m) i) as [[r|e|A op k]|] eqn:Hnth;
          try (replace (step url (resume_callback i) m) with m
                 by (cbn [step]; now rewrite Hnth);
               now apply IH).
        assert (Hc : reader (Await op k))
          by (eapply Forall_forall;
              [exact Hreaders|eapply nth_error_In, Hnth]).
        cbn [reader] in Hc.
        destruct (Hc (world m)) as ([Hdb Htr] & Htm & Hnext).
        apply IH; try assumption; cbn [step]; rewrite Hnth;
          destruct (op (world m)) as [[e|a] w1];
          cbn [fst snd caller world callbacks db trace timers] in *;
          try assumption.
        -- eapply same_store_trans; [|exact Hsame]. split; assumption.
        -- eapply same_store_trans; [|exact Hsame]. split; assumption.
        -- apply Forall_set_nth; [exact I|exact Hreaders].
        -- apply Forall_set_nth; [now apply Hnext|exact Hreaders].
        -- intros _. rewrite Htm. exact Htimers.
        -- intros _. rewrite Htm. exact Htimers.
      * (* a timer becomes due *)
        apply IH; try assumption; cbn [step];
          destruct (timers (world m)) as [|fn rest] eqn:Htm;
          cbn [caller world callbacks db trace timers]; try assumption;
          try (intros _; rewrite ?Htm; assumption).
        -- apply Forall_app. split; [exact Hreaders|].
           inversion Htimers; subst. constructor; [assumption|constructor].
        -- intros _. now inversion Htimers.
Qed.

(** As long as there is no timer and no callback, only a turn of the
    caller changes anything. *)
Lemma first_turn_is_the_callers (w : World Mem) (t : Async Mem unit)
    (turns : list turn) :
  timers w = [] ->
  run url turns (start w t) = start w t \/
  exists rest,
    run url turns (start w t)
    = run url rest (step url resume_caller (start w t)).
Proof.
  intros Htm. induction turns as [|c turns IH]; [left; reflexivity|].
  cbn [run]. destruct c as [|i|].
  - right. exists turns. reflexivity.
  - replace (step url (resume_callback i) (start w t)) with (start w t)
      by (cbn; destruct i; reflexivity).
    exact IH.
  - replace (step url timer_due (start w t)) with (start w t)
      by (cbn; rewrite Htm; reflexivity).
    exact IH.
Qed.

(** Over an empty queue the first read of the orchestrator ends its
    first call: what is left are the call of the selector and the call
    of the dispatcher. *)
Lemma after_the_first_read sendMessage (s : Mem) :
  queue s = [] ->
  let m1 := step url resume_caller
              (start (boot s)
                 (sendOutstanding url MessageObject sendMessage)) in
  caller m1
    = and_then (queueBreakingNewsItems_task None)
        (fun _ => sendQueuedItems_task url MessageObject sendMessage None) /\
  callbacks m1 = [] /\
  timers (world m1) = [].
Proof.
  intros Hempty. unfold start, sendOutstanding.
  unfold sendQueuedItems_task at 1.
  cbn [step caller world callbacks and_then perform].
  rewrite getBatchOfQueuedItems_mem. cbn [boot db default_to].
  rewrite no_batch_in_an_empty_queue by exact Hempty.
  cbn [no_length and_then caller callbacks world timers]. auto.
Qed.

(** X10. An invocation of the orchestrator over a store whose queue is
    empty, with a channel that never throws.  It returns when it is
    given its turns, and it never ends with an error.  Whatever the
    event loop does in between (the selector's timer becoming due while
    the second call of the dispatcher is awaited, its callback reading
    the queue and rejecting), when the orchestrator has returned the
    queue is empty again and the users are untouched; articles changed
    only by growing received-sets; the sends made by then, by anyone,
    are exactly the alert and the card of each obligation owed to the
    first batch of users, in the order of that batch; and each of these
    users is in the received-set of every stored article with the
    identifier of the article they were sent.  Whatever the event loop
    does afterwards, the store does not change any more and nothing
    more is sent. *)
Theorem sendOutstanding_serves_the_first_batch (send : Sender) (s : Mem) :
  (forall tr u m, send tr u m = None) ->
  queue s = [] ->
  let recUsers := mem_find User_collection user_conditions
                    (user_options 0) s in
  let owing := obligations (articles s) recUsers in
  let m0 := start (boot s)
              (sendOutstanding url MessageObject (Some send)) in
  (exists n, caller (run url (repeat resume_caller n) m0) = Return tt) /\
  forall turns,
    let m := run url turns m0 in
    (forall e, caller m <> Raise e) /\
    (caller m = Return tt ->
     queue (db (world m)) = [] /\
     users (db (world m)) = users s /\
     grown (articles s) (articles (db (world m))) /\
     filter is_send (history (world m))
       = flat_map (sends_of url) (enqueue_from (clock s) owing) /\
     Forall (fun d =>
               forall a', In a' (articles (db (world m))) ->
                 article_id a' = article_id (articleData d) ->
                 In (user_id (userData d)) (_receivedByUsers a')) owing /\
     forall more,
       db (world (run url more m)) = db (world m) /\
       filter is_send (history (world (run url more m)))
         = filter is_send (history (world m))).
Proof.
  intros Hsend Hempty recUsers owing m0. subst m0.
  destruct (three_calls_on_an_empty_queue url send s Hsend Hempty)
    as (w' & Hcalls & Hq & Hu & Hg & Hsends & Hmarks).
  rewrite <- run_alone_sendOutstanding in Hcalls.
  split.
  { destruct (caller_alone url
                (sendOutstanding url MessageObject (Some send))
                (boot s) [] [])
      as (n & _ & Hc & _).
    exists n. cbv zeta in Hc. rewrite Hcalls in Hc. exact Hc. }
  intros turns m.
  destruct (first_turn_is_the_callers (boot s)
              (sendOutstanding url MessageObject (Some send)) turns
              eq_refl) as [Hstill|(rest & Hrest)].
  { subst m. rewrite Hstill. unfold start, sendOutstanding.
    unfold sendQueuedItems_task at 1. cbn [caller and_then perform].
    split; [intros e|]; discriminate. }
  destruct (after_the_first_read (Some send) s Hempty)
    as (Hcaller1 & Hcallbacks1 & Htimers1).
  set (m1 := step url resume_caller
                (start (boot s)
                   (sendOutstanding url MessageObject (Some send)))) in *.
  assert (Halone : run_alone (caller m1) (world m1) = (inr tt, w')).
  { subst m1. rewrite run_alone_step. exact Hcalls. }
  destruct (caller_among_readers rest m1 m1) as (j & Hj & Hsame & Hidle).
  - reflexivity.
  - apply same_store_refl.
  - rewrite Hcaller1. apply tame_and_then.
    + apply tame_queueBreakingNewsItems.
    + intros _. now apply tame_sendQueuedItems.
  - rewrite Hcallbacks1. constructor.
  - intros _. rewrite Htimers1. constructor.
  - intros j mj Hended. subst mj.
    destruct (@caller_ended_alone url _ _ j m1 Hended) as [Hw _].
    rewrite Hw, Halone. exact Hq.
  - subst m. rewrite Hrest. clear Hrest.
    set (m := run url rest m1) in *.
    assert (Hend : has_ended (caller m) = true ->
                   caller m = Return tt /\ same_store (world m) w').
    { intros Hended. cbv zeta in Hj, Hsame. rewrite Hj in Hended.
      destruct (@caller_ended_alone url _ _ j m1 Hended) as [Hw Hc].
      rewrite Halone in Hw, Hc. cbn [fst snd ended] in Hw, Hc.
      split; [congruence|]. now rewrite <- Hw. }
    split.
    + intros e He. destruct Hend as [Hret _]; [now rewrite He|congruence].
    + intros Hret. destruct Hend as [_ [Hdb Htr]]; [now rewrite Hret|].
      rewrite Hdb. unfold history. rewrite filter_rev, Htr, <- filter_rev.
      do 5 (split; [assumption|]).
      intros more.
      destruct (@run_on_an_empty_queue url more m) as [Hdb' Htr'].
      * now rewrite Hdb.
      * intros A op k. rewrite Hret. discriminate.
      * exact Hidle.
      * rewrite Hdb' , Hdb. split; [reflexivity|].
        now rewrite !filter_rev, Htr', Htr.
Qed.

End OrchestratorRuns.

(* ================================================================== *)
(** ** The entry script and the read-link *)

Section EntryScriptFacts.

Variable path_join : string -> string -> string.

(** [path.join] answers ["."] rather than an empty path. *)
Hypothesis path_join_not_empty : forall a b, path_join a b <> "".

(** X13. The start-up script always names exactly one local
    configuration file, whatever the environment holds: the [[]] branch
    of its conditional is never taken.  The name is [providers/] and the
    provider id, a dot and the environment, where an unset provider id
    reads ["undefined"] and an unset or empty [NODE_ENV] reads
    ["development"].  The file is required exactly when [PROVIDER_ID] is
    set to a non-empty string. *)
Theorem local_config_is_always_named PROVIDER_ID NODE_ENV :
  let options := config_options path_join PROVIDER_ID NODE_ENV in
  let env := match NODE_ENV with
             | Some (String c e) => String c e
             | _ => "development"
             end in
  localConfig options
    = [ path_join "providers"
          (match PROVIDER_ID with Some id => id | None => "undefined" end
           ++ "." ++ env) ] /\
  (requireLocalConfig options = true <->
   exists c id, PROVIDER_ID = Some (String c id)).
Proof.
  unfold config_options. cbn [localConfig requireLocalConfig to_boolean].
  split.
  - destruct (String.eqb (path_join _ _) "") eqn:Hname.
    + apply String.eqb_eq in Hname. now apply path_join_not_empty in Hname.
    + cbn. destruct NODE_ENV as [[|c e]|]; destruct PROVIDER_ID; reflexivity.
  - destruct PROVIDER_ID as [[|c id]|]; cbn; split; eauto;
      try discriminate; intros (c' & id' & H); discriminate.
Qed.

End EntryScriptFacts.

Lemma append_same_prefix (p x y : string) :
  (p ++ x)%string = (p ++ y)%string -> x = y.
Proof.
  induction p as [|c p IH]; cbn; intros H; [exact H|].
  inversion H. auto.
Qed.

(** X12. The read-link of a card tells users apart: for one article and
    one base address, two users get the same link exactly when they
    have the same identifier. *)
Theorem read_links_tell_users_apart (url : string) (a : Article)
    (u1 u2 : User) :
  read_link (carousel_for url u1 a) = read_link (carousel_for url u2 a) <->
  user_id u1 = user_id u2.
Proof.
  split.
  - cbn. intros H. inversion H as [Hlink]. clear H.
    repeat (apply append_same_prefix in Hlink;
            injection Hlink as Hlink).
    exact Hlink.
  - intros Hid. cbn. now rewrite Hid.
Qed.


(* ================================================================== *)
(** ** The further facts on sample data *)

(** Two sample users are sent different links to the same article. *)
Lemma sample_users_get_links_of_their_own :
  read_link (carousel_for sample_url (sample_user 0)
               (sample_article "a1" 101%Z))
  <> read_link (carousel_for sample_url (sample_user 1)
                  (sample_article "a1" 101%Z)).
Proof. vm_compute. discriminate. Qed.

Lemma local_config_is_always_named_witness :
  localConfig (config_options slash_join None None)
    = ["providers/undefined.development"] /\
  (requireLocalConfig (config_options slash_join None None) = true <->
   exists c id, @None string = Some (String c id)).
Proof.
  apply (@local_config_is_always_named slash_join).
  intros a b. unfold slash_join. destruct a; discriminate.
Defined.

Lemma delivered_batch_is_removed_and_not_owed_again_witness :
  let page := mem_find QUEUE_COLLECTION (fun _ => true)
                (queue_options 0) (queued_store 2) in
  let '(r, w') := sendQueuedItems sample_url MessageObject (Some reliable)
                    None (boot (queued_store 2)) in
  r = inr tt /\
  users (db w') = users (queued_store 2) /\
  queue (db w') =
    filter (fun q => negb (existsb (String.eqb (queue_id q))
                             (map queue_id page)))
      (queue (queued_store 2)) /\
  Forall (fun q =>
            ~ In q (queue (db w')) /\
            match owed (articles (db w')) (userData (queue_data q)) with
            | Some a => article_id a <> article_id (articleData (queue_data q))
            | None => True
            end) page.
Proof.
  apply (@delivered_batch_is_removed_and_not_owed_again sample_url reliable
           None (boot (queued_store 2))).
  intros tr u m. reflexivity.
Defined.

Lemma drain_of_one_batch_empties_the_queue_witness :
  exists wf,
    drain_run sample_url reliable (queued_store 3) = Some wf /\
    queue (db wf) = [] /\
    timers wf = [] /\
    filter is_send (history wf)
      = flat_map (sends_of sample_url)
          (sort_by (asc_date addedDate) (queue (queued_store 3))) /\
    forall q a', In q (queue (queued_store 3)) ->
      In a' (articles (db wf)) ->
      article_id a' = article_id (articleData (queue_data q)) ->
      In (user_id (userData (queue_data q))) (_receivedByUsers a').
Proof.
  apply (@drain_of_one_batch_empties_the_queue sample_url reliable
           (queued_store 3)).
  - intros tr u m. reflexivity.
  - apply Nat.leb_le. vm_compute. reflexivity.
Defined.

Lemma sendOutstanding_serves_the_first_batch_witness :
  let recUsers := mem_find User_collection user_conditions
                    (user_options 0) (users_store 3) in
  let owing := obligations (articles (users_store 3)) recUsers in
  let m0 := start (boot (users_store 3))
              (sendOutstanding sample_url MessageObject (Some reliable)) in
  (exists n,
     caller (run sample_url (repeat resume_caller n) m0) = Return tt) /\
  forall turns,
    let m := run sample_url turns m0 in
    (forall e, caller m <> Raise e) /\
    (caller m = Return tt ->
     queue (db (world m)) = [] /\
     users (db (world m)) = users (users_store 3) /\
     grown (articles (users_store 3)) (articles (db (world m))) /\
     filter is_send (history (world m))
       = flat_map (sends_of sample_url)
           (enqueue_from (clock (users_store 3)) owing) /\
     Forall (fun d =>
               forall a', In a' (articles (db (world m))) ->
                 article_id a' = article_id (articleData d) ->
                 In (user_id (userData d)) (_receivedByUsers a')) owing /\
     forall more,
       db (world (run sample_url more m)) = db (world m) /\
       filter is_send (history (world (run sample_url more m)))
         = filter is_send (history (world m))).
Proof.
  apply (@sendOutstanding_serves_the_first_batch sample_url reliable
           (users_store 3)).
  - intros tr u m. reflexivity.
  - reflexivity.
Defined.

(** A run in which the selector's timer becomes due while the second
    call of the dispatcher is awaited: its callback reads the queue,
    finds the three obligations still there and rejects; the
    orchestrator goes on, returns, and the queue is empty. *)
Lemma selector_timer_due_during_the_second_drain :
  let m := run sample_url
             (repeat resume_caller 11
              ++ [timer_due; resume_callback 0; resume_callback 0]
              ++ repeat resume_caller 30)
             (start (boot (users_store 3))
                (sendOutstanding sample_url MessageObject (Some reliable))) in
  caller m = Return tt /\
  callbacks m
    = [Raise (TypeError "MessageObject.outgoing is not a function")] /\
  filter (fun ev => match ev with
                    | Get _ _ | UnhandledRejection _ => true
                    | _ => false
                    end) (history (world m))
    = [Get "BreakingNewsQueuedItem" 0; Get "User" 0;
       Get "Article" 0; Get "Article" 0; Get "Article" 0;
       Get "BreakingNewsQueuedItem" 0; Get "BreakingNewsQueuedItem" 0;
       UnhandledRejection
         (TypeError "MessageObject.outgoing is not a function")] /\
  queue (db (world m)) = [] /\
  List.length (filter is_send (history (world m))) = 6.
Proof. vm_compute. repeat split. Qed.

(** The design document's scenario again: the alert of the first item was
    delivered before the channel threw on the second, and the retry
    delivers it a second time. *)
Lemma retry_sends_a_failed_batch_again_witness :
  let w := boot (queued_store 3) in
  let w1 := snd (sendQueuedItems sample_url MessageObject
                   (Some (fails_for (user_id (sample_user 1)))) None w) in
  db w1 = db w /\
  exists w2 added2,
    sendQueuedItems sample_url MessageObject (Some reliable) None w1
      = (inr tt, w2) /\
    trace w2 = added2 ++ trace w1 /\
    In (Send (sample_user 0) (outgoing (sample_user 0) alert_content) None)
      added2.
Proof.
  intros w w1.
  apply (@retry_sends_a_failed_batch_again sample_url
           (fails_for (user_id (sample_user 1))) reliable None w w1
           (Failure "channel error") (trace w1) (sample_user 0)
           (outgoing (sample_user 0) alert_content)).
  - vm_compute. reflexivity.
  - vm_compute. reflexivity.
  - vm_compute. right. right. left. reflexivity.
  - intros tr u m. reflexivity.
Defined.
